(** * bolt: registration and dispatch core (bolt.go)

    A shallow embedding of [bolt.go]: the [Bolt] value, its options, the
    middleware slice and the way [Handle] flattens it into a route, and
    [ServeHTTP].  Go slices are modelled with their backing arrays, because
    [Use] and [Handle] both call [append] on the same slice header.

    The router and the methods of [Context] live in other files of the
    package; where a statement needs them they are modelled from the
    design document, and marked so.  [Static], [ServeFile], [Index], [Run]
    and [Stop] are calls into [net/http] and are left out. *)

From Stdlib Require Import ZArith Lia Ascii String List.
From stdpp Require Import base option list gmap strings.

Set Warnings "-register-all".

Local Open Scope string_scope.
Local Open Scope list_scope.
Local Open Scope Z_scope.

(** ** Results of fallible code *)

(** A Go call either returns, panics, or (in this embedding) is cut short
    because the recursion budget of the interpreter was too small. *)
Inductive outcome (A : Type) : Type :=
| Ok (a : A)
| Panic
| OutOfFuel.
Arguments Ok {A} a.
Arguments Panic {A}.
Arguments OutOfFuel {A}.

Definition obind {A B : Type} (m : outcome A) (k : A -> outcome B) : outcome B :=
  match m with
  | Ok a => k a
  | Panic => Panic
  | OutOfFuel => OutOfFuel
  end.

Definition omap {A B : Type} (f : A -> B) (m : outcome A) : outcome B :=
  obind m (fun a => Ok (f a)).

Notation "'try!' x := m 'in' k" := (obind m (fun x => k))
  (at level 10, x name, m at level 100, k at level 200).

(** ** Requests, responses, parameters *)

(** [http.Request], reduced to what the router reads: [r.Method] and
    [r.URL.Path]. *)
Record Request : Type := mkRequest {
  Method : string;
  Path : string
}.

(** What an [http.ResponseWriter] receives, call by call. *)
Inductive RWCall : Type :=
| SetHeader (key value : string)
| WriteHeader (code : Z)
| Write (data : string).

(** The response handle: the calls received so far, oldest first. *)
Definition ResponseWriter : Type := list RWCall.

Record Param : Type := mkParam {
  Name : string;
  Value : string
}.

(** [Params] is a Go slice of [Param] that owns its backing array:
    [backing] is the whole array (its length is the capacity) and [plen]
    the slice length. *)
Record Params : Type := mkParams {
  backing : list Param;
  plen : nat
}.

Definition pcap (p : Params) : nat := length (backing p).

(** [make(Params, n)]: length and capacity [n], zero-valued entries. *)
Definition make_Params (n : nat) : Params :=
  {| backing := repeat (mkParam "" "") n; plen := n |}.

(** ** Slices of handlers and the heap of their backing arrays *)

(** A [[]HandlerFunc] header.  All slices of this program start at the
    first cell of their array, so the header is (array, len, cap); the nil
    slice has [len = cap = 0]. *)
Record slice : Type := mkSlice {
  ptr : nat;
  len : nat;
  cap : nat
}.

Definition nil_slice : slice := {| ptr := 0; len := 0; cap := 0 |}.

(** ** Contexts *)

(** [Context] as [bolt.go] uses it: the factory in [New] sets [Response],
    [params], [store], [i] and [bolt]; the closure in [Handle] sets
    [handlers] and [l]; [reset] binds the request.  [halted] is the halted
    flag of the spec's data model.  A world holds one [Bolt], so the
    [bolt] back pointer is not represented.  The fields [Request] and
    [handlers] carry a trailing underscore here, the first because of the
    type [Request], the second because of the field [handlers] of
    [Bolt]. *)
Record Context : Type := mkContext {
  Request_ : option Request;
  Response : ResponseWriter;
  params : Params;
  store : gmap string string;
  handlers_ : slice;
  l : Z;
  i : Z;
  halted : bool
}.

(** ** Handlers *)

(** What a handler body may do with the [*Context] it receives. *)
Inductive Op : Type :=
| OpNext                          (* c.Next() *)
| OpHalt                          (* c.Halt() *)
| OpError (code : Z)              (* http.Error(c.Response, http.StatusText(code), code) *)
| OpWrite (data : string)         (* c.Response.Write(data) *)
| OpSet (key value : string).     (* store write *)

(** A handler body: a finite tree of operations that may branch on the
    current state of the context. *)
Inductive Body : Type :=
| Ret
| Do (op : Op) (k : Body)
| Look (k : Context -> Body).

(** A non-nil function value of type [HandlerFunc]: either a function with
    its own code, or the closure built by [Handle], which captures the
    flattened slice [h] and its length [l]. *)
Inductive Closure : Type :=
| Func (name : string) (body : Body)
| RouteFunc (h : slice) (n : Z).

(** [HandlerFunc]; [None] is the nil function. *)
Definition HandlerFunc : Type := option Closure.

(** The heap holds the backing arrays of handler slices; an address is an
    index into it. *)
Abbreviation Heap := (list (list HandlerFunc)).

(** The observable trace: which named functions were entered, in order. *)
Inductive Event : Type :=
| EvEnter (name : string).

(** ** [append] *)

(** The elements of a slice, read from the heap now. *)
Definition slice_elems (hp : Heap) (s : slice) : list HandlerFunc :=
  take (len s) (hp !!! ptr s).

(** [s[k]] with Go's bounds check against [len s]. *)
Definition slice_index (hp : Heap) (s : slice) (k : Z) : option HandlerFunc :=
  if (0 <=? k) && (k <? Z.of_nat (len s))
  then (hp !!! ptr s) !! Z.to_nat k
  else None.

(** Write [xs] into array [a] from cell [k] on. *)
Fixpoint write_from (a : list HandlerFunc) (k : nat) (xs : list HandlerFunc)
  : list HandlerFunc :=
  match xs with
  | [] => a
  | x :: xs' => write_from (<[k := x]> a) (S k) xs'
  end.

Section Append.

(** The capacity the runtime picks when [append] has to reallocate, from
    the old capacity and the length needed. *)
Variable growcap : nat -> nat -> nat.

(** Go's [append(s, xs...)]: with room in the backing array the new
    elements are written in place and the array is shared with [s];
    otherwise a new array is allocated and the old elements copied. *)
Definition append (hp : Heap) (s : slice) (xs : list HandlerFunc)
  : slice * Heap :=
  match xs with
  | [] => (s, hp)
  | _ :: _ =>
    let n := (len s + length xs)%nat in
    if (n <=? cap s)%nat
    then ({| ptr := ptr s; len := n; cap := cap s |},
          <[ptr s := write_from (hp !!! ptr s) (len s) xs]> hp)
    else
      let c := growcap (cap s) n in
      ({| ptr := length hp; len := n; cap := c |},
       hp ++ [slice_elems hp s ++ xs ++ repeat None (c - n)%nat])
  end.

End Append.

(** The growth rule of the Go runtime ([runtime.growslice]): take the
    needed length when it is more than double the old capacity, double
    below 1024 elements, and grow by a quarter at a time above.  The
    runtime then rounds the byte size up to an allocation class, which can
    only add capacity; for 1, 2 and 4 pointer-sized elements the class is
    exact.  Later releases changed the rule for large slices only and keep
    the doubling for small ones. *)
Fixpoint grow_quarter (fuel newcap needed : nat) : nat :=
  match fuel with
  | O => needed
  | S fuel' =>
    if (needed <=? newcap)%nat then newcap
    else grow_quarter fuel' (newcap + newcap / 4)%nat needed
  end.

Definition growslice (oldcap needed : nat) : nat :=
  if (oldcap + oldcap <? needed)%nat then needed
  else if (oldcap <? 1024)%nat then (oldcap + oldcap)%nat
  else grow_quarter needed oldcap needed.

(** ** net/http helpers used by the default handlers *)

(** [http.StatusText] on the three codes the default handlers use; Go
    returns the empty string for an unknown code. *)
Definition StatusNotFound : Z := 404.
Definition StatusMethodNotAllowed : Z := 405.
Definition StatusInternalServerError : Z := 500.

Definition StatusText (code : Z) : string :=
  if code =? 404 then "Not Found"
  else if code =? 405 then "Method Not Allowed"
  else if code =? 500 then "Internal Server Error"
  else "".

Definition newline : string := String (ascii_of_nat 10) EmptyString.

(** [http.Error(w, error, code)]: two headers, the status line, then the
    text followed by a newline. *)
Definition http_Error (w : ResponseWriter) (error : string) (code : Z)
  : ResponseWriter :=
  w ++ [SetHeader "Content-Type" "text/plain; charset=utf-8";
        SetHeader "X-Content-Type-Options" "nosniff";
        WriteHeader code;
        Write (error +:+ newline)].

(** ** Field updates on [Context] *)

Definition set_Response (w : ResponseWriter) (c : Context) : Context :=
  {| Request_ := Request_ c; Response := w; params := params c;
     store := store c; handlers_ := handlers_ c; l := l c; i := i c;
     halted := halted c |}.

Definition set_store (m : gmap string string) (c : Context) : Context :=
  {| Request_ := Request_ c; Response := Response c; params := params c;
     store := m; handlers_ := handlers_ c; l := l c; i := i c;
     halted := halted c |}.

Definition set_params (p : Params) (c : Context) : Context :=
  {| Request_ := Request_ c; Response := Response c; params := p;
     store := store c; handlers_ := handlers_ c; l := l c; i := i c;
     halted := halted c |}.

Definition set_i (k : Z) (c : Context) : Context :=
  {| Request_ := Request_ c; Response := Response c; params := params c;
     store := store c; handlers_ := handlers_ c; l := l c; i := k;
     halted := halted c |}.

Definition set_halted (b : bool) (c : Context) : Context :=
  {| Request_ := Request_ c; Response := Response c; params := params c;
     store := store c; handlers_ := handlers_ c; l := l c; i := i c;
     halted := b |}.

(** [c.handlers = h; c.l = n], the first two statements of the closure
    built by [Handle]. *)
Definition set_chain (h : slice) (n : Z) (c : Context) : Context :=
  {| Request_ := Request_ c; Response := Response c; params := params c;
     store := store c; handlers_ := h; l := n; i := i c;
     halted := halted c |}.

(** ** Context methods *)

(** Modelled from the spec: [Context.Halt] is not in [bolt.go].  "A Halt()
    operation marks the chain definitively terminated, overriding any later
    attempt to resume via Next()". *)
Definition Halt (c : Context) : Context := set_halted true c.

(** Modelled from the spec: [Context.reset] is not in [bolt.go].  "Reset
    rebinds the live request/response handles, clears Params to zero length
    (capacity retained), clears Store, resets the cursor, and clears any
    chain reference from a previous cycle."  The cursor is the position [i]
    together with the halted mark; "before first handler" is the [-1] the
    factory in [New] starts from. *)
Definition reset (rw : ResponseWriter) (r : Request) (c : Context) : Context :=
  {| Request_ := Some r;
     Response := rw;
     params := {| backing := backing (params c); plen := 0 |};
     store := ∅;
     handlers_ := nil_slice;
     l := 0;
     i := -1;
     halted := false |}.

(** The running state of a request: its context and the trace so far.  The
    heap is only read while handlers run. *)
Definition Run : Type := (Context * list Event)%type.

Section Exec.

(** How a call of a function value proceeds; [call] below ties the knot. *)
Variable callk : HandlerFunc -> Context -> list Event -> outcome Run.
Variable hp : Heap.

(** Modelled from the spec: [Context.Next] is not in [bolt.go].  "A Next()
    operation advances the cursor and invokes the handler at the new
    position, if any remain"; after [Halt] it does nothing.  The index
    expression [c.handlers[c.i]] panics out of range, as in Go. *)
Definition Next (c : Context) (tr : list Event) : outcome Run :=
  if halted c then Ok (c, tr)
  else
    let c1 := set_i (i c + 1) c in
    if i c1 <? l c1 then
      match slice_index hp (handlers_ c1) (i c1) with
      | Some f => callk f c1 tr
      | None => Panic
      end
    else Ok (c1, tr).

Definition do_op (op : Op) (c : Context) (tr : list Event) : outcome Run :=
  match op with
  | OpNext => Next c tr
  | OpHalt => Ok (Halt c, tr)
  | OpError code =>
      Ok (set_Response (http_Error (Response c) (StatusText code) code) c, tr)
  | OpWrite data => Ok (set_Response (Response c ++ [Write data]) c, tr)
  | OpSet key value => Ok (set_store (<[key := value]> (store c)) c, tr)
  end.

Fixpoint exec (b : Body) (c : Context) (tr : list Event) : outcome Run :=
  match b with
  | Ret => Ok (c, tr)
  | Do op k =>
      match do_op op c tr with
      | Ok (c', tr') => exec k c' tr'
      | Panic => Panic
      | OutOfFuel => OutOfFuel
      end
  | Look k => exec (k c) c tr
  end.

End Exec.

(** Calling a function value [f(c)].  A nil function panics; a function
    with code is entered (and recorded in the trace) and its body run; the
    closure of [Handle] installs its chain and calls [c.Next()].  [fuel]
    bounds the depth of nested calls. *)
Fixpoint call (fuel : nat) (hp : Heap) (f : HandlerFunc) (c : Context)
  (tr : list Event) : outcome Run :=
  match fuel with
  | O => OutOfFuel
  | S fuel' =>
    match f with
    | None => Panic
    | Some (Func name body) =>
        exec (call fuel' hp) hp body c (tr ++ [EvEnter name])
    | Some (RouteFunc h n) =>
        Next (call fuel' hp) hp (set_chain h n c) tr
    end
  end.

(** [c.Next()] called on a context from outside a handler body. *)
Definition Context_Next (fuel : nat) (hp : Heap) (c : Context)
  (tr : list Event) : outcome Run :=
  Next (call fuel hp) hp c tr.

(** ** The router *)

(** Modelled from the spec: the status constants live in the router file,
    which is not in [bolt.go] ([ServeHTTP] names [NotFound] and
    [NotAllowed]).  "status ∈ {Matched, NotFound, NotAllowed}". *)
Inductive Status : Type :=
| Matched
| NotFound
| NotAllowed.

Definition Status_eqb (a b : Status) : bool :=
  match a, b with
  | Matched, Matched | NotFound, NotFound | NotAllowed, NotAllowed => true
  | _, _ => false
  end.

(** Modelled from the spec: the trie node of the router, which is not in
    [bolt.go].  Literal children by exact segment text, at most one
    parameter child (with its capture name), at most one wildcard child,
    and the handlers by method of a node that ends a route. *)
Inductive Node : Type :=
| mkNode (literalChildren : list (string * Node))
         (paramChild : option (string * Node))
         (wildcardChild : option Node)
         (handlersByMethod : list (string * Closure)).

Definition literalChildren (n : Node) : list (string * Node) :=
  match n with mkNode lc _ _ _ => lc end.
Definition paramChild (n : Node) : option (string * Node) :=
  match n with mkNode _ pc _ _ => pc end.
Definition wildcardChild (n : Node) : option Node :=
  match n with mkNode _ _ wc _ => wc end.
Definition handlersByMethod (n : Node) : list (string * Closure) :=
  match n with mkNode _ _ _ hs => hs end.

Definition empty_Node : Node := mkNode [] None None [].

(** Modelled from the spec: the mappings of a node ("keys unique"), kept
    as association lists in which [assoc_set] replaces an existing key. *)
Fixpoint assoc_get {V : Type} (key : string) (m : list (string * V)) : option V :=
  match m with
  | [] => None
  | (k, v) :: m' => if String.eqb k key then Some v else assoc_get key m'
  end.

Fixpoint assoc_set {V : Type} (key : string) (v : V) (m : list (string * V))
  : list (string * V) :=
  match m with
  | [] => [(key, v)]
  | (k, v') :: m' =>
      if String.eqb k key then (key, v) :: m' else (k, v') :: assoc_set key v m'
  end.

(** Modelled from the spec: "splits pattern into segments on [/]", and
    [Find] "splits the incoming path the same way".  [cur] is the segment
    being read. *)
Fixpoint split_from (cur s : string) : list string :=
  match s with
  | EmptyString => [cur]
  | String a s' =>
      if Ascii.eqb a "/"%char then cur :: split_from "" s'
      else split_from (cur +:+ String a EmptyString) s'
  end.

Definition segments (s : string) : list string := split_from "" s.

(** Modelled from the spec: "Pattern segments are literal text, [:name]
    (parameter), or [*] (wildcard, terminal-only)". *)
Inductive Token : Type :=
| TLiteral (text : string)
| TParam (name : string)
| TWildcard.

Definition token_of (seg : string) : Token :=
  match seg with
  | String a rest =>
      if Ascii.eqb a ":"%char then TParam rest
      else if String.eqb seg "*" then TWildcard
      else TLiteral seg
  | EmptyString => TLiteral seg
  end.

(** Modelled from the spec: [router.Add] is not in [bolt.go].  A literal
    token descends or creates a literal child, [:name] the single parameter
    child, [*] the wildcard child and must come last; a second parameter
    name at the same position, or anything after a wildcard, is a
    registration conflict ([None], fatal for the caller).  At the end of
    the pattern the handler is stored under the method, replacing an
    earlier one. *)
Fixpoint Add_segs (segs : list string) (method : string) (h : Closure)
  (n : Node) : option Node :=
  match segs with
  | [] =>
      Some (mkNode (literalChildren n) (paramChild n) (wildcardChild n)
                   (assoc_set method h (handlersByMethod n)))
  | seg :: rest =>
      match token_of seg with
      | TLiteral text =>
          let child := default empty_Node (assoc_get text (literalChildren n)) in
          match Add_segs rest method h child with
          | Some child' =>
              Some (mkNode (assoc_set text child' (literalChildren n))
                           (paramChild n) (wildcardChild n) (handlersByMethod n))
          | None => None
          end
      | TParam name =>
          match paramChild n with
          | Some (name', child) =>
              if String.eqb name' name then
                match Add_segs rest method h child with
                | Some child' =>
                    Some (mkNode (literalChildren n) (Some (name, child'))
                                 (wildcardChild n) (handlersByMethod n))
                | None => None
                end
              else None
          | None =>
              match Add_segs rest method h empty_Node with
              | Some child' =>
                  Some (mkNode (literalChildren n) (Some (name, child'))
                               (wildcardChild n) (handlersByMethod n))
              | None => None
              end
          end
      | TWildcard =>
          match rest with
          | [] =>
              let child := default empty_Node (wildcardChild n) in
              Some (mkNode (literalChildren n) (paramChild n)
                           (Some (mkNode [] None None
                                    (assoc_set method h (handlersByMethod child))))
                           (handlersByMethod n))
          | _ :: _ => None
          end
      end
  end.

Definition Add (method path : string) (h : Closure) (root : Node) : option Node :=
  Add_segs (segments path) method h root.

(** Modelled from the spec: the descent of [Find].  Literal child first,
    else the parameter child (its capture appended to the parameters),
    else the wildcard child, which takes the rest of the path and stops
    the descent.  The wildcard capture has no name in the spec; it is
    bound under ["*"]. *)
Fixpoint descend (segs : list string) (n : Node) (acc : list Param)
  : option Node * list Param :=
  match segs with
  | [] => (Some n, acc)
  | seg :: rest =>
      match assoc_get seg (literalChildren n) with
      | Some child => descend rest child acc
      | None =>
          match paramChild n with
          | Some (name, child) => descend rest child (acc ++ [mkParam name seg])
          | None =>
              match wildcardChild n with
              | Some child =>
                  (Some child, acc ++ [mkParam "*" (String.concat "/" segs)])
              | None => (None, acc)
              end
          end
      end
  end.

(** Modelled from the spec: [router.Find] (the resolution part) is not in
    [bolt.go].  No node, or a node with no handlers at all, is [NotFound];
    a node with handlers for other methods only is [NotAllowed]; a node
    with a handler for the method is [Matched], with the stored handler
    and the captured parameters. *)
Definition Find (root : Node) (method path : string)
  : HandlerFunc * list Param * Status :=
  match descend (segments path) root [] with
  | (None, _) => (None, [], NotFound)
  | (Some n, ps) =>
      match handlersByMethod n with
      | [] => (None, [], NotFound)
      | _ :: _ =>
          match assoc_get method (handlersByMethod n) with
          | Some h => (Some h, ps, Matched)
          | None => (None, [], NotAllowed)
          end
      end
  end.

(** ** The [Bolt] value *)

(** [Bolt]: the router root, the middleware slice, the options' fields and
    the idle contexts of the [sync.Pool] (its [New] function is [pool_New]
    below). *)
Record Bolt : Type := mkBolt {
  Router : Node;
  handlers : slice;
  maxParam : Z;
  notFoundHandler : HandlerFunc;
  methodNotAllowedHandler : HandlerFunc;
  internalServerErrorHandler : HandlerFunc;
  pool : list Context
}.

(** The program state: the [Bolt], the heap of handler arrays, the trace. *)
Record World : Type := mkWorld {
  bolt : Bolt;
  heap : Heap;
  trace : list Event
}.

Definition set_Router (r : Node) (b : Bolt) : Bolt :=
  mkBolt r (handlers b) (maxParam b) (notFoundHandler b)
         (methodNotAllowedHandler b) (internalServerErrorHandler b) (pool b).

Definition set_handlers (s : slice) (b : Bolt) : Bolt :=
  mkBolt (Router b) s (maxParam b) (notFoundHandler b)
         (methodNotAllowedHandler b) (internalServerErrorHandler b) (pool b).

Definition set_maxParam (n : Z) (b : Bolt) : Bolt :=
  mkBolt (Router b) (handlers b) n (notFoundHandler b)
         (methodNotAllowedHandler b) (internalServerErrorHandler b) (pool b).

Definition set_notFoundHandler (h : HandlerFunc) (b : Bolt) : Bolt :=
  mkBolt (Router b) (handlers b) (maxParam b) h
         (methodNotAllowedHandler b) (internalServerErrorHandler b) (pool b).

Definition set_methodNotAllowedHandler (h : HandlerFunc) (b : Bolt) : Bolt :=
  mkBolt (Router b) (handlers b) (maxParam b) (notFoundHandler b)
         h (internalServerErrorHandler b) (pool b).

Definition set_internalServerErrorHandler (h : HandlerFunc) (b : Bolt) : Bolt :=
  mkBolt (Router b) (handlers b) (maxParam b) (notFoundHandler b)
         (methodNotAllowedHandler b) h (pool b).

Definition set_pool (p : list Context) (b : Bolt) : Bolt :=
  mkBolt (Router b) (handlers b) (maxParam b) (notFoundHandler b)
         (methodNotAllowedHandler b) (internalServerErrorHandler b) p.

(** ** Options and [New] *)

(** The four functions of [bolt.go] that return an [Option]; the closure
    each returns is [apply_Option].  ([Option_] for Go's [Option].) *)
Inductive Option_ : Type :=
| MaxParam (n : Z)
| NotFoundHandler (h : HandlerFunc)
| MethodNotAllowedHandler (h : HandlerFunc)
| InternalServerErrorHandler (h : HandlerFunc).

Definition apply_Option (o : Option_) (b : Bolt) : Bolt :=
  match o with
  | MaxParam n => set_maxParam n b
  | NotFoundHandler h => set_notFoundHandler h b
  | MethodNotAllowedHandler h => set_methodNotAllowedHandler h b
  | InternalServerErrorHandler h => set_internalServerErrorHandler h b
  end.

(** The body shared by the three default handlers of [New]:
    [http.Error(c.Response, http.StatusText(code), code); c.Halt()]. *)
Definition error_and_halt (code : Z) : Body :=
  Do (OpError code) (Do OpHalt Ret).

Definition default_notFoundHandler : HandlerFunc :=
  Some (Func "notFoundHandler" (error_and_halt StatusNotFound)).

Definition default_methodNotAllowedHandler : HandlerFunc :=
  Some (Func "methodNotAllowedHandler" (error_and_halt StatusMethodNotAllowed)).

Definition default_internalServerErrorHandler : HandlerFunc :=
  Some (Func "internalServerErrorHandler"
             (error_and_halt StatusInternalServerError)).

(** [NewRouter(b)]: an empty trie. *)
Definition NewRouter : Node := empty_Node.

(** [New(opts...)]: the defaults, then the options in order, then the
    router. *)
Definition New (opts : list Option_) : Bolt :=
  let b :=
    {| Router := empty_Node;
       handlers := nil_slice;
       maxParam := 5;
       notFoundHandler := default_notFoundHandler;
       methodNotAllowedHandler := default_methodNotAllowedHandler;
       internalServerErrorHandler := default_internalServerErrorHandler;
       pool := [] |} in
  let b := fold_left (fun b o => apply_Option o b) opts b in
  set_Router NewRouter b.

(** The world right after [New]: nothing on the heap, an empty trace. *)
Definition start (opts : list Option_) : World :=
  {| bolt := New opts; heap := []; trace := [] |}.

(** [b.pool.New]: the factory of contexts. *)
Definition pool_New (b : Bolt) : Context :=
  {| Request_ := None;
     Response := [];
     params := make_Params (Z.to_nat (maxParam b));
     store := ∅;
     handlers_ := nil_slice;
     l := 0;
     i := -1;
     halted := false |}.

(** [b.pool.Get()]: an idle context if there is one, else a new one.
    [sync.Pool] may hand out any idle item, and may drop idle items at any
    time; here the most recently put one is handed out and none is
    dropped.  The statements about [ServeHTTP] take the context that the
    resolution returned as given, whichever it is. *)
Definition pool_Get (b : Bolt) : Context * Bolt :=
  match pool b with
  | c :: rest => (c, set_pool rest b)
  | [] => (pool_New b, b)
  end.

(** [b.pool.Put(c)]. *)
Definition pool_Put (c : Context) (b : Bolt) : Bolt :=
  set_pool (c :: pool b) b.

(** ** Registration *)

Section Registration.

Variable growcap : nat -> nat -> nat.

(** [Use]: [b.handlers = append(b.handlers, h...)]. *)
Definition Use (h : list HandlerFunc) (w : World) : World :=
  let '(s, hp) := append growcap (heap w) (handlers (bolt w)) h in
  {| bolt := set_handlers s (bolt w); heap := hp; trace := trace w |}.

(** [Handle]: [h = append(b.handlers, h...)], [l := len(h)], and the
    closure over [h] and [l] goes to the router.  A registration
    conflict is fatal. *)
Definition Handle (method path : string) (h : list HandlerFunc) (w : World)
  : outcome World :=
  let '(h', hp) := append growcap (heap w) (handlers (bolt w)) h in
  let n := Z.of_nat (len h') in
  match Add method path (RouteFunc h' n) (Router (bolt w)) with
  | Some r => Ok {| bolt := set_Router r (bolt w); heap := hp; trace := trace w |}
  | None => Panic
  end.

Definition Connect (path : string) (h : list HandlerFunc) (w : World) :=
  Handle "CONNECT" path h w.
Definition Delete (path : string) (h : list HandlerFunc) (w : World) :=
  Handle "DELETE" path h w.
Definition Get (path : string) (h : list HandlerFunc) (w : World) :=
  Handle "GET" path h w.
Definition Head (path : string) (h : list HandlerFunc) (w : World) :=
  Handle "HEAD" path h w.
Definition Options (path : string) (h : list HandlerFunc) (w : World) :=
  Handle "OPTIONS" path h w.
Definition Patch (path : string) (h : list HandlerFunc) (w : World) :=
  Handle "PATCH" path h w.
Definition Post (path : string) (h : list HandlerFunc) (w : World) :=
  Handle "POST" path h w.
Definition Put (path : string) (h : list HandlerFunc) (w : World) :=
  Handle "PUT" path h w.
Definition Trace (path : string) (h : list HandlerFunc) (w : World) :=
  Handle "TRACE" path h w.

End Registration.

(** The chain a route closure runs, read from the heap now: the first [l]
    cells of the captured slice. *)
Definition chain_of (hp : Heap) (f : HandlerFunc) : option (list HandlerFunc) :=
  match f with
  | Some (RouteFunc h n) => Some (take (Z.to_nat n) (slice_elems hp h))
  | _ => None
  end.

(** The chain bound to the route [(method, path)], as a request resolved
    now would run it. *)
Definition route_chain (w : World) (method path : string)
  : option (list HandlerFunc) :=
  chain_of (heap w) (Find (Router (bolt w)) method path).1.1.

(** ** Dispatch *)

(** Modelled from the spec: the parameters captured by a match are written
    into the context's [Params]; more captures than its capacity "is a
    configuration error, not a runtime condition to recover from". *)
Definition bind_params (ps : list Param) (c : Context) : option Context :=
  if (length ps <=? pcap (params c))%nat
  then Some (set_params
               {| backing := ps ++ drop (length ps) (backing (params c));
                  plen := length ps |} c)
  else None.

(** Modelled from the spec: [router.Find] as [ServeHTTP] calls it is not
    in [bolt.go]; it returns the handler, the context and the status, so
    it is the one that takes the context from the pool. *)
Definition Router_Find (w : World) (method path : string)
  : outcome (HandlerFunc * Context * Status * World) :=
  let '(c, b) := pool_Get (bolt w) in
  let '(h, ps, s) := Find (Router b) method path in
  match bind_params ps c with
  | Some c' => Ok (h, c', s, {| bolt := b; heap := heap w; trace := trace w |})
  | None => Panic
  end.

(** The branch of [ServeHTTP] between [c.reset] and [b.pool.Put]. *)
Definition dispatch (fuel : nat) (b : Bolt) (hp : Heap) (h : HandlerFunc)
  (s : Status) (c : Context) (tr : list Event) : outcome Run :=
  match h with
  | Some f => call fuel hp (Some f) c tr
  | None =>
      if Status_eqb s NotFound then call fuel hp (notFoundHandler b) c tr
      else if Status_eqb s NotAllowed
           then call fuel hp (methodNotAllowedHandler b) c tr
           else Ok (c, tr)
  end.

(** [b.pool.Put(c)] at the end of [ServeHTTP]. *)
Definition release (w : World) (r : Run) : World :=
  {| bolt := pool_Put r.1 (bolt w); heap := heap w; trace := r.2 |}.

(** [ServeHTTP(rw, r)]. *)
Definition ServeHTTP (fuel : nat) (w : World) (rw : ResponseWriter)
  (r : Request) : outcome World :=
  try! found := Router_Find w (Method r) (Path r) in
  let '(h, c, s, w1) := found in
  let c := reset rw r c in
  try! run := dispatch fuel (bolt w1) (heap w1) h s c (trace w1) in
  Ok (release w1 run).

(** * Definitions used in the statements *)

(** ** Runs of handlers *)

(** A context is quiet when it is halted or its cursor has reached the end
    of its chain: [Next] then invokes no handler. *)
Definition quiet (c : Context) : Prop :=
  halted c = true \/ l c <= i c + 1.

(** The world with its [Bolt] changed by [f]. *)
Definition map_bolt (f : Bolt -> Bolt) (w : World) : World :=
  {| bolt := f (bolt w); heap := heap w; trace := trace w |}.

(** An update of the [Bolt] that leaves the router, the pool and the
    parameter bound alone. *)
Definition handler_update (f : Bolt -> Bolt) : Prop :=
  forall b,
    Router (f b) = Router b /\ pool (f b) = pool b
    /\ maxParam (f b) = maxParam b
    /\ forall p, f (set_pool p b) = set_pool p (f b).

(** Both fallback fields set at once. *)
Definition set_fallbacks (nf na : HandlerFunc) (b : Bolt) : Bolt :=
  set_methodNotAllowedHandler na (set_notFoundHandler nf b).

(** What a default handler does when called on any context: it is entered,
    [http.Error] sends [code] and [text] through the response handle, and
    the context is halted; from then on [Next] is a no-op and no body run
    on the context enters a handler. *)
Definition default_handler_spec (d : HandlerFunc) (name : string) (code : Z)
  (text : string) : Prop :=
  forall fuel hp c tr,
    let c' := Halt (set_Response (http_Error (Response c) text code) c) in
    call (S fuel) hp d c tr = Ok (c', tr ++ [EvEnter name])
    /\ Response c'
       = Response c ++ [SetHeader "Content-Type" "text/plain; charset=utf-8";
                        SetHeader "X-Content-Type-Options" "nosniff";
                        WriteHeader code; Write (text +:+ newline)]
    /\ halted c' = true
    /\ (forall fuel' tr', Context_Next fuel' hp c' tr' = Ok (c', tr'))
    /\ (forall callk body tr',
           exists c'', exec callk hp body c' tr' = Ok (c'', tr')
                       /\ halted c'' = true).

(** The router after "registering only [GET /x]". *)
Definition only_get_x : Node :=
  default empty_Node (Add "GET" "/x" (Func "x" Ret) empty_Node).

(** ** Options *)

Definition is_MaxParam (o : Option_) : bool :=
  match o with
  | MaxParam _ => true
  | _ => false
  end.

Definition no_MaxParam (opts : list Option_) : bool :=
  forallb (fun o => negb (is_MaxParam o)) opts.

(** ** Registration *)

(** A slice header is well formed in a heap when its length is within its
    capacity and, unless the capacity is zero, its array is on the heap
    with that many cells. *)
Definition wf_slice (hp : Heap) (s : slice) : Prop :=
  (len s <= cap s)%nat
  /\ (cap s = 0%nat
      \/ ((ptr s < length hp)%nat /\ length (hp !!! ptr s) = cap s)).

(** Paths made of literal segments only. *)
Definition literal_seg (seg : string) : bool :=
  match token_of seg with
  | TLiteral _ => true
  | _ => false
  end.

Definition literal_path (path : string) : bool :=
  forallb literal_seg (segments path).

(** The middleware registered so far, read from the heap. *)
Definition middleware (w : World) : list HandlerFunc :=
  slice_elems (heap w) (handlers (bolt w)).

(** The middleware slice of the [Bolt] is well formed in the heap. *)
Definition wf_world (w : World) : Prop :=
  wf_slice (heap w) (handlers (bolt w)).

(** A call of [Use] or of [Handle] (directly or through a method helper). *)
Inductive Registration : Type :=
| CallUse (h : list HandlerFunc)
| CallHandle (method path : string) (h : list HandlerFunc).

(** The calls of a script made in order; a fatal registration stops it. *)
Fixpoint register (growcap : nat -> nat -> nat) (script : list Registration)
  (w : World) : outcome World :=
  match script with
  | [] => Ok w
  | CallUse h :: rest => register growcap rest (Use growcap h w)
  | CallHandle method path h :: rest =>
      match Handle growcap method path h w with
      | Ok w' => register growcap rest w'
      | Panic => Panic
      | OutOfFuel => OutOfFuel
      end
  end.

(** The handlers passed to [Use] by a script, in order. *)
Fixpoint used (script : list Registration) : list HandlerFunc :=
  match script with
  | [] => []
  | CallUse h :: rest => h ++ used rest
  | CallHandle _ _ _ :: rest => used rest
  end.

(** Whether a script registers the route [(method, path)]. *)
Definition registers (method path : string) (script : list Registration) : bool :=
  existsb (fun c =>
             match c with
             | CallHandle m p _ => String.eqb m method && String.eqb p path
             | CallUse _ => false
             end) script.

(** Stability of routes as a property of the runtime's growth rule: once
    a route is registered, calls that do not register it again leave the
    chain it resolves to as it was. *)
Definition chains_stay_fixed (growcap : nat -> nat -> nat) : Prop :=
  forall script method path h later w w',
    register growcap (script ++ [CallHandle method path h]) (start []) = Ok w ->
    registers method path later = false ->
    register growcap later w = Ok w' ->
    route_chain w' method path = route_chain w method path.

(** A middleware that only calls [c.Next()], and an endpoint that writes
    its name to the response. *)
Definition passes_on (name : string) : HandlerFunc :=
  Some (Func name (Do OpNext Ret)).

Definition answers (name : string) : HandlerFunc :=
  Some (Func name (Do (OpWrite name) Ret)).

(** [Use(m1); Use(m2); Use(m3)], then [Get("/a", hA)] and [Get("/b", hB)]. *)
Definition three_middleware : list Registration :=
  [CallUse [passes_on "m1"]; CallUse [passes_on "m2"]; CallUse [passes_on "m3"]].

Definition get_a : Registration := CallHandle "GET" "/a" [answers "hA"].
Definition get_b : Registration := CallHandle "GET" "/b" [answers "hB"].

(** ** Termination measure *)

(** The chain length a function value can install: [n] for the closure of
    [Handle], nothing for the others. *)
Definition closure_bound (f : HandlerFunc) : Z :=
  match f with
  | Some (RouteFunc _ n) => n
  | _ => 0
  end.

Definition array_bound (a : list HandlerFunc) : Z :=
  foldr (fun f acc => Z.max (closure_bound f) acc) 0 a.

Definition heap_bound (hp : Heap) : Z :=
  foldr (fun a acc => Z.max (array_bound a) acc) 0 hp.

(** What a run from [c] guarantees: it does not run out of fuel, and if
    it returns, the chain length is still below [L] and the cursor has
    not moved back. *)
Definition safe_run (L : Z) (c : Context) (res : outcome Run) : Prop :=
  res <> OutOfFuel
  /\ forall c' tr', res = Ok (c', tr') -> l c' <= L /\ i c <= i c'.

(** Calls made with a cursor past [i0] and before [L] are safe. *)
Definition callk_safe (L : Z)
  (callk : HandlerFunc -> Context -> list Event -> outcome Run) (i0 : Z) : Prop :=
  forall f c tr,
    closure_bound f <= L -> l c <= L -> i0 < i c -> i c < L ->
    safe_run L c (callk f c tr).

(** Three middleware and the route [GET /a]. *)
Definition demo_world : World :=
  match register growslice (three_middleware ++ [get_a]) (start []) with
  | Ok w => w
  | _ => start []
  end.

(** * The rest of [bolt.go] *)

(** ** [MethodMap] *)

(** [MethodMap]: the code of each HTTP method. *)
Definition MethodMap : gmap string Z :=
  list_to_map
    [("CONNECT", 1); ("DELETE", 2); ("GET", 3); ("HEAD", 4); ("OPTIONS", 5);
     ("PATCH", 6); ("POST", 7); ("PUT", 8); ("TRACE", 9)].

(** The index expression [MethodMap[m]]: Go returns the zero value for a
    key that is not in the map. *)
Definition MethodMap_index (m : string) : Z := default 0 (MethodMap !! m).

(** ** File routes *)

Section Files.

Variable growcap : nat -> nat -> nat.

(** The two function literals that call into [net/http]: the one of
    [Static] runs [http.StripPrefix(path, http.FileServer(http.Dir(root)))]
    on the request, the one of [ServeFile] runs [http.ServeFile] on
    [file].  What they do to the response is the business of [net/http];
    they are taken as given function values. *)
Variable static_handler : string -> string -> Closure.
Variable file_handler : string -> Closure.

(** [Static]: [b.Get(path+"/*", ...)]. *)
Definition Static (path root : string) (w : World) : outcome World :=
  Get growcap (path +:+ "/*") [Some (static_handler path root)] w.

(** [ServeFile]: [b.Get(path, ...)]. *)
Definition ServeFile (path file : string) (w : World) : outcome World :=
  Get growcap path [Some (file_handler file)] w.

(** [Index]: [b.ServeFile("/", file)]. *)
Definition Index (file : string) (w : World) : outcome World :=
  ServeFile "/" file w.

End Files.

(** ** Options, field by field *)

Definition pick_MaxParam (o : Option_) : option Z :=
  match o with MaxParam n => Some n | _ => None end.

Definition pick_NotFoundHandler (o : Option_) : option HandlerFunc :=
  match o with NotFoundHandler h => Some h | _ => None end.

Definition pick_MethodNotAllowedHandler (o : Option_) : option HandlerFunc :=
  match o with MethodNotAllowedHandler h => Some h | _ => None end.

Definition pick_InternalServerErrorHandler (o : Option_) : option HandlerFunc :=
  match o with InternalServerErrorHandler h => Some h | _ => None end.

(** The argument of the last option of one kind in [opts], or [d] when
    there is none. *)
Fixpoint last_of {A : Type} (pick : Option_ -> option A) (opts : list Option_)
  (d : A) : A :=
  match opts with
  | [] => d
  | o :: rest => last_of pick rest (default d (pick o))
  end.

(** ** Cells of the heap that registration leaves alone *)

(** The first [k] cells of the array at [p] are out of reach of the next
    [append] to the middleware slice: the array is on the heap and, if
    the middleware slice points at it, the slice already covers those
    cells. *)
Definition keeps (p k : nat) (w : World) : Prop :=
  (p < length (heap w))%nat
  /\ (ptr (handlers (bolt w)) = p ->
      (0 < cap (handlers (bolt w)))%nat ->
      (k <= len (handlers (bolt w)))%nat).

(** ** A world with three middleware *)

(** The world after [Use(m1); Use(m2); Use(m3)] on a new [Bolt]. *)
Definition middleware_world : World :=
  match register growslice three_middleware (start []) with
  | Ok w => w
  | _ => start []
  end.

(** ** Handlers that pass the request on *)

(** An operation that leaves the cursor alone. *)
Definition steady (op : Op) : Prop :=
  op <> OpNext /\ op <> OpHalt.

(** A body that never calls [c.Next()] or [c.Halt()]. *)
Inductive plain : Body -> Prop :=
| plain_Ret : plain Ret
| plain_Do (op : Op) (k : Body) : steady op -> plain k -> plain (Do op k)
| plain_Look (k : Context -> Body) : (forall c, plain (k c)) -> plain (Look k).

(** A body that calls [c.Next()] once, on every path, and never
    [c.Halt()]: what it does before the call is its inbound phase, what it
    does after is its outbound phase. *)
Inductive through : Body -> Prop :=
| through_Next (k : Body) : plain k -> through (Do OpNext k)
| through_Do (op : Op) (k : Body) : steady op -> through k -> through (Do op k)
| through_Look (k : Context -> Body) :
    (forall c, through (k c)) -> through (Look k).

(** A chain of functions with code in which every handler but the last
    passes the request on, with the names of its handlers in order; the
    last one may pass it on or not. *)
Inductive runs_through : list HandlerFunc -> list string -> Prop :=
| runs_nil : runs_through [] []
| runs_last (name : string) (body : Body) :
    plain body -> runs_through [Some (Func name body)] [name]
| runs_cons (name : string) (body : Body) (fs : list HandlerFunc)
    (names : list string) :
    through body -> runs_through fs names ->
    runs_through (Some (Func name body) :: fs) (name :: names).

(** The cursor state of a context: chain, its length, position, halted. *)
Definition cursor (c : Context) : slice * Z * Z * bool :=
  (handlers_ c, l c, i c, halted c).

(** ** An override that holds a chain *)


(** * Properties *)

(** ** Contexts on which [Next] calls nothing *)

Lemma reset_quiet rw r c : quiet (reset rw r c).
Proof. right. simpl. lia. Qed.

Lemma Halt_quiet c : quiet (Halt c).
Proof. left. reflexivity. Qed.

Section QuietRuns.

Variable callk : HandlerFunc -> Context -> list Event -> outcome Run.
Variable hp : Heap.

Lemma Next_quiet c tr :
  quiet c ->
  exists c', Next callk hp c tr = Ok (c', tr) /\ quiet c'
             /\ (halted c = true -> c' = c).
Proof.
  intros Hq. unfold Next.
  destruct (halted c) eqn:Hh.
  - exists c. repeat split; auto.
  - destruct Hq as [Hq | Hq]; [congruence |].
    simpl.
    destruct (Z.ltb_spec (i c + 1) (l c)) as [Hlt | Hge]; [lia |].
    eexists. split; [reflexivity |]. split; [| discriminate].
    right. simpl. lia.
Qed.

Lemma do_op_quiet op c tr :
  quiet c ->
  exists c', do_op callk hp op c tr = Ok (c', tr) /\ quiet c'
             /\ (halted c = true -> halted c' = true).
Proof.
  intros Hq. destruct op; simpl.
  - destruct (Next_quiet c tr Hq) as (c' & He & Hq' & Hsame).
    exists c'. repeat split; auto. intros Hh. rewrite (Hsame Hh). exact Hh.
  - eexists. split; [reflexivity |]. split; [apply Halt_quiet | reflexivity].
  - eexists. split; [reflexivity |]. split; [exact Hq | auto].
  - eexists. split; [reflexivity |]. split; [exact Hq | auto].
  - eexists. split; [reflexivity |]. split; [exact Hq | auto].
Qed.

(** On a quiet context a body runs to its end whatever it does, enters no
    other function, and leaves the context quiet (and halted if it was). *)
Lemma exec_quiet b : forall c tr,
  quiet c ->
  exists c', exec callk hp b c tr = Ok (c', tr) /\ quiet c'
             /\ (halted c = true -> halted c' = true).
Proof.
  induction b as [| op k IH | k IH]; intros c tr Hq; simpl.
  - exists c. auto.
  - destruct (do_op_quiet op c tr Hq) as (c1 & He & Hq1 & Hh1).
    rewrite He.
    destruct (IH c1 tr Hq1) as (c2 & He2 & Hq2 & Hh2).
    exists c2. repeat split; auto.
  - apply IH, Hq.
Qed.

End QuietRuns.

(** Calling a function with code on a quiet context enters that function
    and nothing else. *)
Lemma call_Func_quiet fuel hp name body c tr :
  quiet c ->
  exists c', call (S fuel) hp (Some (Func name body)) c tr
             = Ok (c', tr ++ [EvEnter name])
             /\ quiet c' /\ (halted c = true -> halted c' = true).
Proof. intros Hq. simpl. apply exec_quiet, Hq. Qed.

(** ** The default handlers *)

Lemma error_and_halt_runs callk hp code c tr :
  exec callk hp (error_and_halt code) c tr
  = Ok (Halt (set_Response (http_Error (Response c) (StatusText code) code) c), tr).
Proof. reflexivity. Qed.

(** ** What [ServeHTTP] does after resolution *)

Lemma ServeHTTP_unfold fuel w rw r h c s w1 :
  Router_Find w (Method r) (Path r) = Ok (h, c, s, w1) ->
  ServeHTTP fuel w rw r
  = omap (release w1)
         (dispatch fuel (bolt w1) (heap w1) h s (reset rw r c) (trace w1)).
Proof. intros Hf. unfold ServeHTTP. rewrite Hf. reflexivity. Qed.

(** Resolution takes a context from the pool and touches nothing else. *)
Lemma Router_Find_world w method path h c s w1 :
  Router_Find w method path = Ok (h, c, s, w1) ->
  heap w1 = heap w /\ trace w1 = trace w
  /\ pool (bolt w1) = tail (pool (bolt w))
  /\ Router (bolt w1) = Router (bolt w)
  /\ notFoundHandler (bolt w1) = notFoundHandler (bolt w)
  /\ methodNotAllowedHandler (bolt w1) = methodNotAllowedHandler (bolt w)
  /\ (h, (params c).(plen), s)
     = (let '(h', ps, s') := Find (Router (bolt w)) method path in
        (h', length ps, s')).
Proof.
  unfold Router_Find, pool_Get. intros Hf.
  destruct (pool (bolt w)) as [| c0 rest] eqn:Hp; simpl in Hf.
  - destruct (Find (Router (bolt w)) method path) as [[h' ps] s'].
    destruct (bind_params ps (pool_New (bolt w))) as [c' |] eqn:Hb; [| discriminate].
    inversion Hf; subst; clear Hf. simpl.
    unfold bind_params in Hb.
    destruct (length ps <=? pcap (params (pool_New (bolt w))))%nat; [| discriminate].
    inversion Hb; subst. simpl. rewrite Hp. repeat split; reflexivity.
  - destruct (Find (Router (bolt w)) method path) as [[h' ps] s'].
    destruct (bind_params ps c0) as [c' |] eqn:Hb; [| discriminate].
    inversion Hf; subst; clear Hf. simpl.
    unfold bind_params in Hb.
    destruct (length ps <=? pcap (params c0))%nat; [| discriminate].
    inversion Hb; subst. simpl. repeat split; reflexivity.
Qed.

(** ** Changing a handler field of the [Bolt] *)

Lemma handler_update_notFound h : handler_update (set_notFoundHandler h).
Proof. intros b. repeat split. Qed.

Lemma handler_update_notAllowed h : handler_update (set_methodNotAllowedHandler h).
Proof. intros b. repeat split. Qed.

Lemma handler_update_internal h : handler_update (set_internalServerErrorHandler h).
Proof. intros b. repeat split. Qed.

Lemma handler_update_compose f g :
  handler_update f -> handler_update g -> handler_update (fun b => f (g b)).
Proof.
  intros Hf Hg b.
  destruct (Hg b) as (g1 & g2 & g3 & g4).
  destruct (Hf (g b)) as (f1 & f2 & f3 & f4).
  split; [congruence |]. split; [congruence |]. split; [congruence |].
  intros p. rewrite g4. apply f4.
Qed.

Lemma Router_Find_map_bolt f w method path :
  handler_update f ->
  Router_Find (map_bolt f w) method path
  = omap (fun '(h, c, s, w1) => (h, c, s, map_bolt f w1))
         (Router_Find w method path).
Proof.
  intros Hf. unfold Router_Find, pool_Get. simpl.
  destruct (Hf (bolt w)) as (Hr & Hp & Hm & Hs).
  rewrite Hp.
  destruct (pool (bolt w)) as [| c0 rest].
  - rewrite Hr.
    replace (pool_New (f (bolt w))) with (pool_New (bolt w))
      by (unfold pool_New; rewrite Hm; reflexivity).
    destruct (Find (Router (bolt w)) method path) as [[h ps] s].
    destruct (bind_params ps (pool_New (bolt w))); reflexivity.
  - change (Router (set_pool rest (f (bolt w)))) with (Router (f (bolt w))).
    change (Router (set_pool rest (bolt w))) with (Router (bolt w)).
    rewrite Hr.
    destruct (Find (Router (bolt w)) method path) as [[h ps] s].
    destruct (bind_params ps c0); simpl; [| reflexivity].
    unfold map_bolt. simpl. rewrite Hs. reflexivity.
Qed.

Lemma release_map_bolt f w run :
  handler_update f -> release (map_bolt f w) run = map_bolt f (release w run).
Proof.
  intros Hf. unfold release, map_bolt, pool_Put. simpl.
  destruct (Hf (bolt w)) as (_ & Hp & _ & Hs).
  rewrite Hp, Hs. reflexivity.
Qed.

(** If the update does not change what [dispatch] calls, [ServeHTTP] does
    the same with and without it. *)
Lemma ServeHTTP_map_bolt f fuel w rw r :
  handler_update f ->
  (forall h c s w1,
      Router_Find w (Method r) (Path r) = Ok (h, c, s, w1) ->
      dispatch fuel (f (bolt w1)) (heap w1) h s (reset rw r c) (trace w1)
      = dispatch fuel (bolt w1) (heap w1) h s (reset rw r c) (trace w1)) ->
  ServeHTTP fuel (map_bolt f w) rw r = omap (map_bolt f) (ServeHTTP fuel w rw r).
Proof.
  intros Hf Hd. unfold ServeHTTP.
  rewrite (Router_Find_map_bolt f w _ _ Hf).
  destruct (Router_Find w (Method r) (Path r)) as [[[[h c] s] w1] | |] eqn:Hfind;
    simpl; try reflexivity.
  rewrite (Hd h c s w1 eq_refl).
  destruct (dispatch fuel (bolt w1) (heap w1) h s (reset rw r c) (trace w1))
    as [run | |]; simpl; try reflexivity.
  rewrite (release_map_bolt f w1 run Hf). reflexivity.
Qed.

Lemma handler_update_fallbacks nf na : handler_update (set_fallbacks nf na).
Proof. intros b. repeat split. Qed.

Lemma error_and_halt_spec name code text :
  StatusText code = text ->
  default_handler_spec (Some (Func name (error_and_halt code))) name code text.
Proof.
  intros <- fuel hp c tr c'. split; [reflexivity |].
  split; [reflexivity |]. split; [reflexivity |]. split.
  - intros fuel' tr'. reflexivity.
  - intros callk body tr'.
    destruct (exec_quiet callk hp body c' tr' (Halt_quiet _)) as (c'' & He & _ & Hh).
    exists c''. split; [exact He | apply Hh; reflexivity].
Qed.

(** ** Options *)

Lemma New_last_option opts o :
  New (opts ++ [o]) = set_Router NewRouter (apply_Option o (New opts)).
Proof.
  unfold New. rewrite fold_left_app. simpl.
  destruct o; reflexivity.
Qed.

Lemma bind_no_params c : exists c', bind_params [] c = Some c'.
Proof. unfold bind_params. simpl. eexists. reflexivity. Qed.

Lemma fold_options_maxParam opts : forall b,
  no_MaxParam opts = true ->
  maxParam (fold_left (fun b o => apply_Option o b) opts b) = maxParam b.
Proof.
  induction opts as [| o opts IH]; intros b Hno; simpl; [reflexivity |].
  simpl in Hno. apply andb_true_iff in Hno as [Ho Hno].
  rewrite (IH _ Hno). destruct o; try reflexivity. discriminate.
Qed.


Lemma pool_New_params b :
  plen (params (pool_New b)) = Z.to_nat (maxParam b)
  /\ pcap (params (pool_New b)) = Z.to_nat (maxParam b).
Proof.
  unfold pool_New, pcap. simpl. rewrite repeat_length. split; reflexivity.
Qed.

Lemma maxParam_Use growcap h w :
  maxParam (bolt (Use growcap h w)) = maxParam (bolt w).
Proof.
  unfold Use. destruct (append growcap (heap w) (handlers (bolt w)) h).
  reflexivity.
Qed.

Lemma maxParam_Handle growcap method path h w w' :
  Handle growcap method path h w = Ok w' ->
  maxParam (bolt w') = maxParam (bolt w).
Proof.
  unfold Handle. destruct (append growcap (heap w) (handlers (bolt w)) h).
  destruct (Add method path _ (Router (bolt w))); [| discriminate].
  intros H. inversion H. reflexivity.
Qed.

Lemma fold_options_pool opts : forall b,
  pool (fold_left (fun b o => apply_Option o b) opts b) = pool b.
Proof.
  induction opts as [| o opts IH]; intros b; simpl; [reflexivity |].
  rewrite IH. destruct o; reflexivity.
Qed.

Lemma New_pool opts : pool (New opts) = [].
Proof.
  unfold New.
  change (pool (set_Router NewRouter ?b)) with (pool b).
  rewrite fold_options_pool. reflexivity.
Qed.

Lemma New_without_MaxParam opts :
  no_MaxParam opts = true -> maxParam (New opts) = 5.
Proof.
  intros Hno. unfold New.
  change (maxParam (set_Router NewRouter ?b)) with (maxParam b).
  rewrite (fold_options_maxParam _ _ Hno). reflexivity.
Qed.

(** ** Slices and [append] *)

Lemma write_from_length xs : forall a k, length (write_from a k xs) = length a.
Proof.
  induction xs as [| x xs IH]; intros a k; simpl; [reflexivity |].
  rewrite IH. apply length_insert.
Qed.

Lemma write_from_take xs : forall a k,
  (k + length xs <= length a)%nat ->
  take (k + length xs) (write_from a k xs) = take k a ++ xs.
Proof.
  induction xs as [| x xs IH]; intros a k Hk; simpl in *.
  - rewrite Nat.add_0_r, app_nil_r. reflexivity.
  - replace (k + S (length xs))%nat with (S k + length xs)%nat by lia.
    rewrite IH by (rewrite length_insert; lia).
    rewrite (take_S_r _ k x).
    + rewrite take_insert_ge by lia. rewrite <- app_assoc. reflexivity.
    + apply list_lookup_insert_eq. lia.
Qed.

Lemma slice_elems_length hp s :
  wf_slice hp s -> length (slice_elems hp s) = len s.
Proof.
  intros (Hle & [H0 | (_ & Hl)]); unfold slice_elems; rewrite length_take; lia.
Qed.

Section AppendFacts.

Variable growcap : nat -> nat -> nat.
Hypothesis growcap_fits : forall oldcap needed, (needed <= growcap oldcap needed)%nat.

(** [append] returns the old elements followed by the new ones. *)
Lemma append_elems hp s xs :
  wf_slice hp s ->
  slice_elems (append growcap hp s xs).2 (append growcap hp s xs).1
  = slice_elems hp s ++ xs
  /\ wf_slice (append growcap hp s xs).2 (append growcap hp s xs).1
  /\ len (append growcap hp s xs).1 = (len s + length xs)%nat.
Proof.
  intros Hwf. pose proof (slice_elems_length hp s Hwf) as Hlen.
  destruct Hwf as (Hle & Harr).
  unfold append. destruct xs as [| x xs].
  { simpl. rewrite app_nil_r, Nat.add_0_r. repeat split; auto. }
  set (ys := x :: xs). set (n := (len s + length ys)%nat).
  assert (Hn : (0 < length ys)%nat) by (simpl; lia).
  destruct (Nat.leb_spec n (cap s)) as [Hfit | Hgrow].
  - destruct Harr as [H0 | (Hp & Hl)]; [lia |].
    unfold slice_elems, wf_slice. cbn [fst snd ptr len cap].
    rewrite length_insert, list_lookup_total_insert_eq by exact Hp.
    split; [apply write_from_take; lia |].
    split; [| reflexivity].
    split; [exact Hfit |]. right.
    split; [exact Hp | rewrite write_from_length; exact Hl].
  - pose proof (growcap_fits (cap s) n) as Hc.
    unfold wf_slice. unfold slice_elems at 1. cbn [fst snd ptr len cap].
    rewrite lookup_total_app_r by lia. rewrite Nat.sub_diag.
    change ([?a] !!! 0%nat) with a.
    split.
    + rewrite app_assoc, take_app_length'; [reflexivity |].
      rewrite length_app, Hlen. reflexivity.
    + split; [| reflexivity]. split; [exact Hc |]. right.
      rewrite length_app. split; [simpl; lia |].
      rewrite !length_app, Hlen, repeat_length. fold n. lia.
Qed.

End AppendFacts.

Lemma write_from_take_below xs : forall a k j,
  (j <= k)%nat -> take j (write_from a k xs) = take j a.
Proof.
  induction xs as [| x xs IH]; intros a k j Hj; simpl; [reflexivity |].
  rewrite IH by lia. apply take_insert_ge. lia.
Qed.

(** [append] leaves the elements of its argument slice alone: an in-place
    write only touches the cells past its length. *)
Lemma append_keeps_argument growcap hp s xs :
  wf_slice hp s ->
  slice_elems (append growcap hp s xs).2 s = slice_elems hp s
  /\ wf_slice (append growcap hp s xs).2 s.
Proof.
  intros (Hle & Harr). unfold append. destruct xs as [| x xs].
  { split; [reflexivity | split; assumption]. }
  set (ys := x :: xs).
  destruct (Nat.leb_spec (len s + length ys) (cap s)) as [Hfit | Hgrow];
    unfold slice_elems, wf_slice; cbn [fst snd].
  - destruct Harr as [H0 | (Hp & Hl)]; [simpl in Hfit; lia |].
    rewrite length_insert, list_lookup_total_insert_eq by exact Hp.
    rewrite write_from_length.
    split; [apply write_from_take_below; lia |].
    split; [exact Hle | right; split; assumption].
  - destruct Harr as [H0 | (Hp & Hl)].
    + assert (Hz : len s = 0%nat) by lia. rewrite Hz. simpl.
      split; [reflexivity |]. split; [lia | left; exact H0].
    + rewrite length_app, lookup_total_app_l by exact Hp.
      split; [reflexivity |].
      split; [exact Hle | right; split; [lia | exact Hl]].
Qed.

(** ** Registration and resolution of literal paths *)

Lemma assoc_get_set {V : Type} key (v : V) m :
  assoc_get key (assoc_set key v m) = Some v.
Proof.
  induction m as [| [k v'] m IH]; simpl.
  - rewrite String.eqb_refl. reflexivity.
  - destruct (String.eqb k key) eqn:Hk; simpl.
    + rewrite String.eqb_refl. reflexivity.
    + rewrite Hk. exact IH.
Qed.

Lemma token_of_literal seg text : token_of seg = TLiteral text -> text = seg.
Proof.
  unfold token_of. destruct seg as [| a rest]; [congruence |].
  destruct (Ascii.eqb a ":"%char); [discriminate |].
  destruct (String.eqb (String a rest) "*"); [discriminate |]. congruence.
Qed.

Lemma descend_Add_literal segs : forall n n' method h acc,
  forallb literal_seg segs = true ->
  Add_segs segs method h n = Some n' ->
  exists node,
    descend segs n' acc = (Some node, acc)
    /\ assoc_get method (handlersByMethod node) = Some h.
Proof.
  induction segs as [| seg rest IH]; intros n n' method h acc Hlit Hadd.
  - simpl in Hadd. inversion Hadd; subst; clear Hadd.
    eexists. split; [reflexivity |]. simpl. apply assoc_get_set.
  - simpl in Hlit. apply andb_true_iff in Hlit as [Hseg Hrest].
    simpl in Hadd. unfold literal_seg in Hseg.
    destruct (token_of seg) as [text | name |] eqn:Htok; try discriminate.
    apply token_of_literal in Htok. subst text.
    destruct (Add_segs rest method h
                (default empty_Node (assoc_get seg (literalChildren n))))
      as [child' |] eqn:Hchild; [| discriminate].
    inversion Hadd; subst; clear Hadd.
    simpl. rewrite assoc_get_set.
    exact (IH _ _ _ _ acc Hrest Hchild).
Qed.

(** A route registered under a literal path resolves to its handler, with
    no parameters. *)
Lemma Find_Add_literal method path h root root' :
  literal_path path = true ->
  Add method path h root = Some root' ->
  Find root' method path = (Some h, [], Matched).
Proof.
  intros Hlit Hadd. unfold Find.
  destruct (descend_Add_literal _ _ _ _ _ [] Hlit Hadd) as (node & Hd & Hg).
  rewrite Hd.
  destruct (handlersByMethod node) as [| e es]; [discriminate |].
  rewrite Hg. reflexivity.
Qed.

(** ** What [Use] and [Handle] do at the time of the call *)

Section RegistrationFacts.

Variable growcap : nat -> nat -> nat.
Hypothesis growcap_fits : forall oldcap needed, (needed <= growcap oldcap needed)%nat.

Lemma Use_appends h w :
  wf_world w ->
  middleware (Use growcap h w) = middleware w ++ h
  /\ wf_world (Use growcap h w).
Proof.
  intros Hwf. unfold middleware, wf_world, Use.
  destruct (append_elems growcap growcap_fits (heap w) (handlers (bolt w)) h Hwf)
    as (He & Hw & _).
  destruct (append growcap (heap w) (handlers (bolt w)) h) as [s hp].
  simpl in *. split; assumption.
Qed.

(** At the time of the call, the closure [Handle] hands to the router
    runs the middleware registered so far followed by the route's own
    handlers; its length is the length of that sequence; the middleware
    slice itself is unchanged. *)
Lemma Handle_binds method path h w w' :
  wf_world w ->
  Handle growcap method path h w = Ok w' ->
  (exists f,
      Add method path f (Router (bolt w)) = Some (Router (bolt w'))
      /\ chain_of (heap w') (Some f) = Some (middleware w ++ h))
  /\ middleware w' = middleware w
  /\ wf_world w'.
Proof.
  intros Hwf. unfold Handle, middleware, wf_world.
  destruct (append_elems growcap growcap_fits (heap w) (handlers (bolt w)) h Hwf)
    as (He & Hw & Hl).
  destruct (append_keeps_argument growcap (heap w) (handlers (bolt w)) h Hwf)
    as (Hk & Hwk).
  destruct (append growcap (heap w) (handlers (bolt w)) h) as [s hp].
  cbn [fst snd] in *.
  destruct (Add method path (RouteFunc s (Z.of_nat (len s))) (Router (bolt w)))
    as [r |] eqn:Hadd; [| discriminate].
  intros H. inversion H; subst; clear H. simpl.
  split; [| split; assumption].
  exists (RouteFunc s (Z.of_nat (len s))). split; [exact Hadd |].
  simpl. rewrite Nat2Z.id, <- He.
  rewrite take_ge; [reflexivity |].
  rewrite (slice_elems_length hp s Hw). lia.
Qed.

(** For a literal path, the route resolves to that chain right after the
    registration. *)
Lemma Handle_route_chain method path h w w' :
  wf_world w ->
  literal_path path = true ->
  Handle growcap method path h w = Ok w' ->
  route_chain w' method path = Some (middleware w ++ h).
Proof.
  intros Hwf Hlit Hh.
  destruct (Handle_binds method path h w w' Hwf Hh) as ((f & Hadd & Hc) & _).
  unfold route_chain. rewrite (Find_Add_literal _ _ _ _ _ Hlit Hadd).
  exact Hc.
Qed.

End RegistrationFacts.

(** ** Two registrations with spare capacity *)

(** X4: whenever the middleware slice has spare capacity, two routes
    registered in a row share its array: the closure of the first one is
    bound to the middleware followed by [x] when it is registered, and to
    the middleware followed by [y], the handler of the second route, after
    that one is registered.  This holds for every growth rule. *)
Lemma Handle_twice_overwrites growcap m1 p1 x m2 p2 y w w1 w2 :
  wf_world w ->
  (len (handlers (bolt w)) < cap (handlers (bolt w)))%nat ->
  Handle growcap m1 p1 [x] w = Ok w1 ->
  Handle growcap m2 p2 [y] w1 = Ok w2 ->
  let s := handlers (bolt w) in
  let f1 := RouteFunc {| ptr := ptr s; len := len s + 1; cap := cap s |}
                      (Z.of_nat (len s + 1)) in
  Add m1 p1 f1 (Router (bolt w)) = Some (Router (bolt w1))
  /\ chain_of (heap w1) (Some f1) = Some (middleware w ++ [x])
  /\ chain_of (heap w2) (Some f1) = Some (middleware w ++ [y]).
Proof.
  intros Hwf Hspare H1 H2 s f1. subst s f1.
  unfold Handle in H1. unfold wf_world in Hwf. unfold middleware.
  set (s := handlers (bolt w)) in *.
  assert (Hin : forall hp z,
             append growcap hp s [z]
             = ({| ptr := ptr s; len := len s + 1; cap := cap s |},
                <[ptr s := write_from (hp !!! ptr s) (len s) [z]]> hp)).
  { intros hp z. unfold append. simpl length.
    destruct (Nat.leb_spec (len s + 1) (cap s)); [reflexivity | lia]. }
  assert (Hfit : forall a b : nat, (b <= Nat.max a b)%nat) by lia.
  rewrite Hin in H1. cbn [len] in H1.
  set (s1 := {| ptr := ptr s; len := len s + 1; cap := cap s |}) in *.
  revert H1.
  destruct (Add m1 p1 (RouteFunc s1 (Z.of_nat (len s + 1))) (Router (bolt w)))
    as [r1 |] eqn:Ha1; [| discriminate].
  intros H1. inversion H1; subst w1; clear H1.
  unfold Handle in H2. cbn [bolt heap trace] in H2.
  change (handlers (set_Router r1 (bolt w))) with s in H2.
  rewrite Hin in H2. fold s1 in H2. cbn [len] in H2.
  revert H2.
  destruct (Add m2 p2 _ _) as [r2 |]; [| discriminate].
  intros H2. inversion H2; subst w2; clear H2.
  cbn [bolt heap trace]. split; [reflexivity |].
  pose proof (append_keeps_argument growcap (heap w) s [x] Hwf) as Hkx.
  rewrite Hin in Hkx. cbn [fst snd] in Hkx. destruct Hkx as (Hkx & Hwkx).
  assert (Hlen : length (slice_elems (heap w) s) = len s)
    by (apply slice_elems_length, Hwf).
  assert (Hboth : forall hp z,
             wf_slice hp s ->
             slice_elems (<[ptr s := <[len s := z]> (hp !!! ptr s)]> hp) s1
             = slice_elems hp s ++ [z]).
  { intros hp z Hw.
    pose proof (append_elems Nat.max Hfit hp s [z] Hw) as (He & _).
    unfold append in He. simpl length in He.
    destruct (Nat.leb_spec (len s + 1) (cap s)) as [_ | Hbad]; [| lia].
    exact He. }
  unfold chain_of. rewrite Nat2Z.id. split.
  - rewrite (Hboth _ _ Hwf), take_ge; [reflexivity |].
    rewrite length_app, Hlen. simpl. lia.
  - rewrite (Hboth _ _ Hwkx), Hkx, take_ge; [reflexivity |].
    rewrite length_app, Hlen. simpl. lia.
Qed.

(** ** Sequences of registration calls *)

Lemma register_app growcap s1 s2 w :
  register growcap (s1 ++ s2) w
  = obind (register growcap s1 w) (register growcap s2).
Proof.
  revert w. induction s1 as [| [h | m p h] s1 IH]; intros w; simpl.
  - reflexivity.
  - apply IH.
  - destruct (Handle growcap m p h w); simpl; [apply IH | reflexivity ..].
Qed.

Lemma fold_options_handlers opts : forall b,
  handlers (fold_left (fun b o => apply_Option o b) opts b) = handlers b.
Proof.
  induction opts as [| o opts IH]; intros b; simpl; [reflexivity |].
  rewrite IH. destruct o; reflexivity.
Qed.

Lemma New_handlers opts : handlers (New opts) = nil_slice.
Proof.
  unfold New. change (handlers (set_Router NewRouter ?b)) with (handlers b).
  rewrite fold_options_handlers. reflexivity.
Qed.

Lemma start_wf opts : wf_world (start opts).
Proof.
  unfold wf_world, start. cbn [bolt heap]. rewrite New_handlers.
  split; [apply Nat.le_refl | left; reflexivity].
Qed.

Lemma start_middleware opts : middleware (start opts) = [].
Proof.
  unfold middleware, start. cbn [bolt heap]. rewrite New_handlers.
  reflexivity.
Qed.

(** Under any growth rule, for every interleaving of [Use] and [Handle]
    calls: the middleware is what the [Use] calls passed, in order. *)
Lemma register_middleware growcap :
  (forall oldcap needed, (needed <= growcap oldcap needed)%nat) ->
  forall script w w',
    wf_world w ->
    register growcap script w = Ok w' ->
    middleware w' = middleware w ++ used script /\ wf_world w'.
Proof.
  intros Hfit script.
  induction script as [| [h | m p h] script IH]; intros w w' Hwf Hreg;
    simpl in Hreg.
  - inversion Hreg; subst. simpl. rewrite app_nil_r. auto.
  - destruct (Use_appends growcap Hfit h w Hwf) as (Hm & Hwf1).
    destruct (IH _ _ Hwf1 Hreg) as (Hm' & Hwf').
    split; [| exact Hwf'].
    rewrite Hm', Hm. simpl. rewrite <- app_assoc. reflexivity.
  - destruct (Handle growcap m p h w) as [w1 | |] eqn:Hh; try discriminate.
    destruct (Handle_binds growcap Hfit m p h w w1 Hwf Hh) as (_ & Hm & Hwf1).
    destruct (IH _ _ Hwf1 Hreg) as (Hm' & Hwf').
    split; [| exact Hwf']. rewrite Hm', Hm. reflexivity.
Qed.

(** Under any growth rule, for every interleaving: right after a route
    with a literal path is registered, its chain is the handlers passed to
    [Use] before, in order, followed by its own. *)
Lemma chain_at_registration growcap :
  (forall oldcap needed, (needed <= growcap oldcap needed)%nat) ->
  forall script method path h w,
    literal_path path = true ->
    register growcap (script ++ [CallHandle method path h]) (start []) = Ok w ->
    route_chain w method path = Some (used script ++ h).
Proof.
  intros Hfit script method path h w Hlit Hreg.
  rewrite register_app in Hreg.
  destruct (register growcap script (start [])) as [w0 | |] eqn:H0;
    try discriminate.
  simpl in Hreg.
  destruct (Handle growcap method path h w0) as [w1 | |] eqn:Hh;
    try discriminate.
  inversion Hreg; subst; clear Hreg.
  destruct (register_middleware growcap Hfit script _ _ (start_wf []) H0)
    as (Hm & Hwf).
  rewrite start_middleware in Hm. simpl in Hm.
  rewrite (Handle_route_chain growcap Hfit _ _ _ _ _ Hwf Hlit Hh), Hm.
  reflexivity.
Qed.

Lemma growslice_fits oldcap needed : (needed <= growslice oldcap needed)%nat.
Proof.
  unfold growslice.
  destruct (Nat.ltb_spec (oldcap + oldcap) needed); [lia |].
  destruct (Nat.ltb_spec oldcap 1024); [lia |].
  assert (H' : forall fuel c, (needed <= grow_quarter fuel c needed)%nat).
  { induction fuel as [| fuel IH]; intros c; simpl; [lia |].
    destruct (Nat.leb_spec needed c); [lia | apply IH]. }
  apply H'.
Qed.

(** ** Calls terminate *)

Lemma array_bound_lookup a : forall k f,
  a !! k = Some f -> closure_bound f <= array_bound a.
Proof.
  induction a as [| x a IH]; intros k f Hk; [discriminate |].
  destruct k as [| k]; simpl in *.
  - inversion Hk; subst. lia.
  - specialize (IH k f Hk). lia.
Qed.

Lemma heap_bound_lookup (hp : Heap) : forall p a,
  hp !! p = Some a -> array_bound a <= heap_bound hp.
Proof.
  induction hp as [| x hp IH]; intros p a Hp; [discriminate |].
  destruct p as [| p]; simpl in *.
  - inversion Hp; subst. lia.
  - specialize (IH p a Hp). lia.
Qed.

Lemma slice_index_bound hp s k f :
  slice_index hp s k = Some f -> closure_bound f <= heap_bound hp.
Proof.
  unfold slice_index.
  destruct ((0 <=? k) && (k <? Z.of_nat (len s))); [| discriminate].
  rewrite list_lookup_total_alt.
  destruct (hp !! ptr s) as [a |] eqn:Ha; simpl.
  - intros Hk. pose proof (array_bound_lookup _ _ _ Hk).
    pose proof (heap_bound_lookup _ _ _ Ha). lia.
  - destruct (Z.to_nat k); discriminate.
Qed.

Section Termination.

Variable hp : Heap.
Variable L : Z.
Hypothesis heap_below : heap_bound hp <= L.

Lemma Next_safe callk i0 c tr :
  callk_safe L callk i0 -> l c <= L -> i0 <= i c ->
  safe_run L c (Next callk hp c tr).
Proof.
  intros Hk Hl Hi. unfold Next.
  destruct (halted c).
  { split; [discriminate |]. intros c' tr' H. inversion H; subst. lia. }
  simpl.
  destruct (Z.ltb_spec (i c + 1) (l c)) as [Hlt | Hge].
  - destruct (slice_index hp (handlers_ c) (i c + 1)) as [f |] eqn:Hf.
    + pose proof (slice_index_bound _ _ _ _ Hf) as Hb.
      destruct (Hk f (set_i (i c + 1) c) tr) as (Hne & Hpost);
        simpl; try lia.
      split; [exact Hne |].
      intros c' tr' H. destruct (Hpost c' tr' H) as (H1 & H2).
      simpl in H2. lia.
    + split; [discriminate |]. intros c' tr' H. discriminate.
  - split; [discriminate |]. intros c' tr' H. inversion H; subst.
    simpl. lia.
Qed.

Lemma do_op_safe callk i0 op c tr :
  callk_safe L callk i0 -> l c <= L -> i0 <= i c ->
  safe_run L c (do_op callk hp op c tr).
Proof.
  intros Hk Hl Hi. destruct op; simpl;
    try (split; [discriminate |];
         intros c' tr' H; inversion H; subst; simpl; lia).
  apply (Next_safe callk i0); assumption.
Qed.

Lemma exec_safe callk i0 b : forall c tr,
  callk_safe L callk i0 -> l c <= L -> i0 <= i c ->
  safe_run L c (exec callk hp b c tr).
Proof.
  induction b as [| op k IH | k IH]; intros c tr Hk Hl Hi; simpl.
  - split; [discriminate |]. intros c' tr' H. inversion H; subst. lia.
  - destruct (do_op_safe callk i0 op c tr Hk Hl Hi) as (Hne & Hpost).
    destruct (do_op callk hp op c tr) as [[c1 tr1] | |];
      [| split; [discriminate | intros ? ? H; discriminate] | congruence].
    destruct (Hpost c1 tr1 eq_refl) as (Hl1 & Hi1).
    destruct (IH c1 tr1 Hk Hl1 ltac:(lia)) as (Hne2 & Hpost2).
    split; [exact Hne2 |].
    intros c' tr' H. destruct (Hpost2 c' tr' H). lia.
  - apply IH; assumption.
Qed.

Lemma call_safe m : forall fuel f c tr,
  (m < fuel)%nat ->
  closure_bound f <= L -> l c <= L -> L - i c <= Z.of_nat m ->
  safe_run L c (call fuel hp f c tr).
Proof.
  induction m as [| m IH]; intros fuel f c tr Hfuel Hb Hl Hm;
    (destruct fuel as [| fuel]; [lia |]).
  - assert (Hk : callk_safe L (call fuel hp) (i c)).
    { intros f' c' tr' _ _ H1 H2. lia. }
    destruct f as [[name body | h n] |]; simpl.
    + apply (exec_safe _ (i c)); auto. lia.
    + pose proof (Next_safe (call fuel hp) (i c) (set_chain h n c) tr Hk) as H.
      simpl in H. simpl in Hb. apply H; [exact Hb | lia].
    + split; [discriminate | intros ? ? H; discriminate].
  - assert (Hk : callk_safe L (call fuel hp) (i c)).
    { intros f' c' tr' Hb' Hl' H1 H2. apply IH; auto; lia. }
    destruct f as [[name body | h n] |]; simpl.
    + apply (exec_safe _ (i c)); auto. lia.
    + pose proof (Next_safe (call fuel hp) (i c) (set_chain h n c) tr Hk) as H.
      simpl in H. simpl in Hb. apply H; [exact Hb | lia].
    + split; [discriminate | intros ? ? H; discriminate].
Qed.

End Termination.

(** Every call returns or panics once the fuel is large enough. *)
Lemma call_enough_fuel hp f c tr :
  exists n, forall fuel, (n <= fuel)%nat -> call fuel hp f c tr <> OutOfFuel.
Proof.
  set (L := Z.max (heap_bound hp) (Z.max (closure_bound f) (l c))).
  exists (S (Z.to_nat (L - i c))). intros fuel Hfuel.
  apply (call_safe hp L ltac:(lia) (Z.to_nat (L - i c)) fuel f c tr); lia.
Qed.

(** So does [ServeHTTP]. *)
Lemma ServeHTTP_enough_fuel w rw r :
  exists n, forall fuel, (n <= fuel)%nat -> ServeHTTP fuel w rw r <> OutOfFuel.
Proof.
  unfold ServeHTTP.
  destruct (Router_Find w (Method r) (Path r)) as [[[[h c] s] w1] | |] eqn:Hf;
    simpl; [| exists 0%nat; discriminate | ].
  - unfold dispatch.
    assert (Hcall : forall f,
               exists n, forall fuel, (n <= fuel)%nat ->
                 omap (release w1)
                      (call fuel (heap w1) f (reset rw r c) (trace w1))
                 <> OutOfFuel).
    { intros f.
      destruct (call_enough_fuel (heap w1) f (reset rw r c) (trace w1)) as (n & Hn).
      exists n. intros fuel Hfuel. specialize (Hn fuel Hfuel).
      destruct (call fuel (heap w1) f (reset rw r c) (trace w1));
        simpl; congruence. }
    destruct h as [f |]; [apply Hcall |].
    destruct (Status_eqb s NotFound); [apply Hcall |].
    destruct (Status_eqb s NotAllowed); [apply Hcall |].
    exists 0%nat. discriminate.
  - unfold Router_Find in Hf.
    destruct (pool_Get (bolt w)) as [c b].
    destruct (Find (Router b) (Method r) (Path r)) as [[h ps] s].
    destruct (bind_params ps c); discriminate.
Qed.

(** ** More fuel changes nothing *)

Section FuelMonotone.

Variable hp : Heap.
Variables callk callk' : HandlerFunc -> Context -> list Event -> outcome Run.
Hypothesis callk_extends :
  forall f c tr, callk f c tr <> OutOfFuel -> callk' f c tr = callk f c tr.

Lemma Next_extends c tr :
  Next callk hp c tr <> OutOfFuel -> Next callk' hp c tr = Next callk hp c tr.
Proof.
  unfold Next. destruct (halted c); [reflexivity |].
  destruct (i (set_i (i c + 1) c) <? l (set_i (i c + 1) c)); [| reflexivity].
  destruct (slice_index hp (handlers_ (set_i (i c + 1) c)) (i (set_i (i c + 1) c)));
    [apply callk_extends | reflexivity].
Qed.

Lemma do_op_extends op c tr :
  do_op callk hp op c tr <> OutOfFuel ->
  do_op callk' hp op c tr = do_op callk hp op c tr.
Proof. destruct op; simpl; try reflexivity. apply Next_extends. Qed.

Lemma exec_extends b : forall c tr,
  exec callk hp b c tr <> OutOfFuel ->
  exec callk' hp b c tr = exec callk hp b c tr.
Proof.
  induction b as [| op k IH | k IH]; intros c tr Hne; simpl in *.
  - reflexivity.
  - destruct (do_op callk hp op c tr) as [[c1 tr1] | |] eqn:Hop;
      [| | congruence].
    + rewrite do_op_extends by congruence. rewrite Hop. apply IH, Hne.
    + rewrite do_op_extends by congruence. rewrite Hop. reflexivity.
  - apply IH, Hne.
Qed.

End FuelMonotone.

Lemma call_fuel_S hp fuel : forall f c tr,
  call fuel hp f c tr <> OutOfFuel ->
  call (S fuel) hp f c tr = call fuel hp f c tr.
Proof.
  induction fuel as [| fuel IH]; intros f c tr Hne; [simpl in Hne; congruence |].
  destruct f as [[name body | h n] |]; [| | reflexivity].
  - change (exec (call (S fuel) hp) hp body c (tr ++ [EvEnter name])
            = exec (call fuel hp) hp body c (tr ++ [EvEnter name])).
    apply exec_extends; [exact IH | exact Hne].
  - change (Next (call (S fuel) hp) hp (set_chain h n c) tr
            = Next (call fuel hp) hp (set_chain h n c) tr).
    apply Next_extends; [exact IH | exact Hne].
Qed.

Lemma call_fuel_le hp fuel fuel' f c tr :
  (fuel <= fuel')%nat ->
  call fuel hp f c tr <> OutOfFuel ->
  call fuel' hp f c tr = call fuel hp f c tr.
Proof.
  intros Hle Hne. induction Hle as [| m Hle IH]; [reflexivity |].
  rewrite call_fuel_S; [exact IH | rewrite IH; exact Hne].
Qed.

Lemma dispatch_fuel_le fuel fuel' b hp h s c tr :
  (fuel <= fuel')%nat ->
  dispatch fuel b hp h s c tr <> OutOfFuel ->
  dispatch fuel' b hp h s c tr = dispatch fuel b hp h s c tr.
Proof.
  intros Hle. unfold dispatch.
  destruct h as [f |]; [apply call_fuel_le, Hle |].
  destruct (Status_eqb s NotFound); [apply call_fuel_le, Hle |].
  destruct (Status_eqb s NotAllowed); [apply call_fuel_le, Hle |].
  reflexivity.
Qed.

(** A request served with some fuel is served the same way with more. *)
Lemma ServeHTTP_fuel_le fuel fuel' w rw r w' :
  (fuel <= fuel')%nat ->
  ServeHTTP fuel w rw r = Ok w' ->
  ServeHTTP fuel' w rw r = Ok w'.
Proof.
  intros Hle. unfold ServeHTTP.
  destruct (Router_Find w (Method r) (Path r)) as [[[[h c] s] w1] | |];
    simpl; try discriminate.
  destruct (dispatch fuel (bolt w1) (heap w1) h s (reset rw r c) (trace w1))
    as [run | |] eqn:Hd; simpl; try discriminate.
  rewrite (dispatch_fuel_le fuel fuel') by (try exact Hle; congruence).
  rewrite Hd. simpl. auto.
Qed.

(** ** Chains whose handlers pass the request on *)

Section ChainRuns.

Variable callk : HandlerFunc -> Context -> list Event -> outcome Run.
Variable hp : Heap.

Lemma do_op_steady op c tr :
  steady op ->
  exists c', do_op callk hp op c tr = Ok (c', tr) /\ cursor c' = cursor c.
Proof.
  intros (Hn & Hh). destruct op; try congruence; simpl;
    eexists; (split; [reflexivity | reflexivity]).
Qed.

(** A plain body returns, enters nothing and leaves the cursor alone. *)
Lemma exec_plain b :
  plain b ->
  forall c tr,
    exists c', exec callk hp b c tr = Ok (c', tr) /\ cursor c' = cursor c.
Proof.
  induction 1 as [| op k Hop _ IH | k _ IH]; intros c tr; simpl.
  - exists c. auto.
  - destruct (do_op_steady op c tr Hop) as (c1 & He & Hc1). rewrite He.
    destruct (IH c1 tr) as (c2 & He2 & Hc2).
    exists c2. split; [exact He2 | congruence].
  - apply IH.
Qed.

(** If [Next] at cursor state [st] enters the functions [names] and
    returns with the chain and the halted mark unchanged, so does a body
    that passes the request on. *)
Lemma exec_through hs n k0 names b :
  (forall c tr,
      cursor c = (hs, n, k0, false) ->
      exists c', Next callk hp c tr = Ok (c', tr ++ map EvEnter names)
                 /\ handlers_ c' = hs /\ l c' = n /\ halted c' = false) ->
  through b ->
  forall c tr,
    cursor c = (hs, n, k0, false) ->
    exists c', exec callk hp b c tr = Ok (c', tr ++ map EvEnter names)
               /\ handlers_ c' = hs /\ l c' = n /\ halted c' = false.
Proof.
  intros HNext. induction 1 as [k Hk | op k Hop _ IH | k _ IH];
    intros c tr Hc; simpl.
  - change (do_op callk hp OpNext c tr) with (Next callk hp c tr).
    destruct (HNext c tr Hc) as (c1 & He & H1 & H2 & H3). rewrite He.
    destruct (exec_plain k Hk c1 (tr ++ map EvEnter names)) as (c2 & He2 & Hc2).
    exists c2. split; [exact He2 |].
    unfold cursor in Hc2. inversion Hc2. repeat split; congruence.
  - destruct (do_op_steady op c tr Hop) as (c1 & He & Hc1). rewrite He.
    apply IH. congruence.
  - apply IH, Hc.
Qed.

End ChainRuns.

(** The cells of the chain of a route closure, by index. *)
Lemma chain_of_index hp hs n fs :
  chain_of hp (Some (RouteFunc hs n)) = Some fs ->
  n = Z.of_nat (length fs) ->
  forall k f, fs !! k = Some f -> slice_index hp hs (Z.of_nat k) = Some f.
Proof.
  unfold chain_of, slice_elems, slice_index. intros Hc Hn k f Hk.
  inversion Hc as [Hfs]; clear Hc.
  rewrite Hn, Nat2Z.id in Hfs.
  pose proof (lookup_lt_Some _ _ _ Hk) as Hlt.
  assert (Hlen : length fs = length (take (length fs) (take (len hs) (hp !!! ptr hs))))
    by (rewrite Hfs at 1; reflexivity).
  rewrite !length_take in Hlen.
  rewrite <- Hfs in Hk.
  rewrite !lookup_take_lt in Hk by lia.
  rewrite Nat2Z.id.
  destruct (Z.leb_spec 0 (Z.of_nat k)); [| lia].
  destruct (Z.ltb_spec (Z.of_nat k) (Z.of_nat (len hs))); [| lia].
  exact Hk.
Qed.

(** From the position before handler [j] of a chain that passes requests
    on, [Next] enters the remaining handlers in order and returns. *)
Lemma Next_runs_rest hp hs fs rest names :
  runs_through rest names ->
  forall done_ fuel c tr,
    fs = done_ ++ rest ->
    (forall k f, fs !! k = Some f -> slice_index hp hs (Z.of_nat k) = Some f) ->
    cursor c = (hs, Z.of_nat (length fs), Z.of_nat (length done_) - 1, false) ->
    (length rest <= fuel)%nat ->
    exists c', Next (call fuel hp) hp c tr = Ok (c', tr ++ map EvEnter names)
               /\ handlers_ c' = hs /\ l c' = Z.of_nat (length fs)
               /\ halted c' = false.
Proof.
  induction 1 as [| name body Hbody | name body rest names Hbody Hrest IH];
    intros done_ fuel c tr Hfs Hidx Hc Hfuel;
    unfold cursor in Hc; inversion Hc as [[Hh Hl Hi Hhalt]]; clear Hc.
  - rewrite app_nil_r in Hfs. subst done_.
    unfold Next. rewrite Hhalt. simpl i. simpl l. rewrite Hl, Hi.
    destruct (Z.ltb_spec (Z.of_nat (length fs) - 1 + 1) (Z.of_nat (length fs)));
      [lia |].
    simpl. rewrite app_nil_r. eexists. split; [reflexivity |].
    simpl. auto.
  - destruct fuel as [| fuel]; [simpl in Hfuel; lia |].
    assert (Hlook : fs !! length done_ = Some (Some (Func name body))).
    { rewrite Hfs. rewrite lookup_app_r by apply Nat.le_refl.
      rewrite Nat.sub_diag. reflexivity. }
    assert (Hlenfs : length fs = S (length done_)).
    { rewrite Hfs, length_app. simpl. lia. }
    unfold Next. rewrite Hhalt. simpl i. simpl l. simpl handlers_.
    rewrite Hl, Hi, Hh.
    replace (Z.of_nat (length done_) - 1 + 1) with (Z.of_nat (length done_)) by lia.
    destruct (Z.ltb_spec (Z.of_nat (length done_)) (Z.of_nat (length fs)));
      [| lia].
    rewrite (Hidx _ _ Hlook). simpl call.
    destruct (exec_plain (call fuel hp) hp body Hbody
                (set_i (Z.of_nat (length done_)) c) (tr ++ [EvEnter name]))
      as (c' & He & Hc').
    exists c'. split; [exact He |].
    unfold cursor in Hc'. inversion Hc'. simpl. repeat split; congruence.
  - destruct fuel as [| fuel]; [simpl in Hfuel; lia |].
    assert (Hlook : fs !! length done_ = Some (Some (Func name body))).
    { rewrite Hfs. rewrite lookup_app_r by apply Nat.le_refl.
      rewrite Nat.sub_diag. reflexivity. }
    assert (Hlenfs : (length done_ < length fs)%nat).
    { rewrite Hfs, length_app. simpl. lia. }
    unfold Next. rewrite Hhalt. simpl i. simpl l. simpl handlers_.
    rewrite Hl, Hi, Hh.
    replace (Z.of_nat (length done_) - 1 + 1) with (Z.of_nat (length done_)) by lia.
    destruct (Z.ltb_spec (Z.of_nat (length done_)) (Z.of_nat (length fs)));
      [| lia].
    rewrite (Hidx _ _ Hlook). simpl call.
    destruct (exec_through (call fuel hp) hp hs (Z.of_nat (length fs))
                (Z.of_nat (length done_)) names body) with
      (c := set_i (Z.of_nat (length done_)) c) (tr := tr ++ [EvEnter name])
      as (c' & He & H1 & H2 & H3).
    + intros c0 tr0 Hc0.
      apply (IH (done_ ++ [Some (Func name body)]) fuel c0 tr0).
      * rewrite <- app_assoc. exact Hfs.
      * exact Hidx.
      * rewrite length_app. simpl length.
        rewrite Hc0. f_equal. f_equal. lia.
      * simpl in Hfuel. lia.
    + exact Hbody.
    + unfold cursor. simpl. congruence.
    + exists c'. split; [| auto].
      rewrite He. simpl. rewrite <- app_assoc. reflexivity.
Qed.

(** Calling the closure of a route whose chain passes requests on, from a
    fresh cursor: every handler of the chain is entered, in order. *)
Lemma call_route_runs_chain fuel hp hs fs names c tr :
  chain_of hp (Some (RouteFunc hs (Z.of_nat (length fs)))) = Some fs ->
  runs_through fs names ->
  i c = -1 -> halted c = false ->
  (length fs <= fuel)%nat ->
  exists c',
    call (S fuel) hp (Some (RouteFunc hs (Z.of_nat (length fs)))) c tr
    = Ok (c', tr ++ map EvEnter names).
Proof.
  intros Hchain Hruns Hi Hh Hfuel. simpl call.
  destruct (Next_runs_rest hp hs fs fs names Hruns [] fuel
              (set_chain hs (Z.of_nat (length fs)) c) tr)
    as (c' & He & _); auto.
  - apply (chain_of_index _ _ _ _ Hchain eq_refl).
  - unfold cursor. simpl. rewrite Hi, Hh. reflexivity.
  - exists c'. exact He.
Qed.

(** ** Options, field by field *)

Lemma fold_options_fields opts : forall b,
  fold_left (fun b o => apply_Option o b) opts b
  = {| Router := Router b;
       handlers := handlers b;
       maxParam := last_of pick_MaxParam opts (maxParam b);
       notFoundHandler := last_of pick_NotFoundHandler opts (notFoundHandler b);
       methodNotAllowedHandler :=
         last_of pick_MethodNotAllowedHandler opts (methodNotAllowedHandler b);
       internalServerErrorHandler :=
         last_of pick_InternalServerErrorHandler opts
                 (internalServerErrorHandler b);
       pool := pool b |}.
Proof.
  induction opts as [| o opts IH]; intros b; simpl.
  - destruct b; reflexivity.
  - rewrite IH. destruct o; reflexivity.
Qed.

(** * The claims *)

(** C1: the chain of a route does not stay what it was at registration.
    After three [Use] calls the middleware slice has length 3 and capacity
    4; [Get("/a", hA)] appends in place, and the closure of the route
    shares that array; [Get("/b", hB)], or a later [Use(m4)], appends in
    place again and overwrites the fourth cell.  A request for [GET /a]
    then runs [hB] instead of [hA]. *)
Theorem later_registration_overwrites_route_chain :
  omap (fun w => (handlers (bolt w)))
       (register growslice three_middleware (start []))
  = Ok {| ptr := 2; len := 3; cap := 4 |}
  /\ omap (fun w => route_chain w "GET" "/a")
          (register growslice (three_middleware ++ [get_a]) (start []))
     = Ok (Some [passes_on "m1"; passes_on "m2"; passes_on "m3"; answers "hA"])
  /\ omap (fun w => route_chain w "GET" "/a")
          (register growslice (three_middleware ++ [get_a; get_b]) (start []))
     = Ok (Some [passes_on "m1"; passes_on "m2"; passes_on "m3"; answers "hB"])
  /\ omap (fun w => route_chain w "GET" "/a")
          (register growslice
             (three_middleware ++ [get_a; CallUse [passes_on "m4"]]) (start []))
     = Ok (Some [passes_on "m1"; passes_on "m2"; passes_on "m3"; passes_on "m4"])
  /\ obind (register growslice (three_middleware ++ [get_a; get_b]) (start []))
           (fun w => omap (fun w' => (trace w', map Response (pool (bolt w'))))
                          (ServeHTTP 5 w [] (mkRequest "GET" "/a")))
     = Ok ([EvEnter "m1"; EvEnter "m2"; EvEnter "m3"; EvEnter "hB"],
           [[Write "hB"]])
  /\ ~ chains_stay_fixed growslice.
Proof.
  split; [vm_compute; reflexivity |].
  split; [vm_compute; reflexivity |].
  split; [vm_compute; reflexivity |].
  split; [vm_compute; reflexivity |].
  split; [vm_compute; reflexivity |].
  intros Hfixed.
  assert (Hbad : exists w w',
             register growslice (three_middleware ++ [get_a]) (start []) = Ok w
             /\ register growslice [get_b] w = Ok w'
             /\ route_chain w' "GET" "/a" <> route_chain w "GET" "/a").
  { eexists. eexists.
    split; [vm_compute; reflexivity |].
    split; [vm_compute; reflexivity |].
    vm_compute. discriminate. }
  destruct Hbad as (w & w' & Hw & Hw' & Hne).
  apply Hne.
  exact (Hfixed three_middleware "GET" "/a" [answers "hA"] [get_b] w w'
           Hw eq_refl Hw').
Qed.

(** C2: after resolution, [ServeHTTP] makes exactly one call and that call
    runs.  With no route handler and status [NotFound] it is the
    configured not-found handler, with no route handler and status
    [NotAllowed] the configured method-not-allowed handler, and with a
    route handler it is that handler, whatever the two fallback fields
    hold.  A fallback that is a function with code is the only function
    entered.  A route handler with code has its body run on the reset
    context; the closure of [Handle] installs its chain and calls [Next],
    so that the first handler of the chain has its body run at cursor 0,
    and a chain whose handlers pass the request on is entered handler by
    handler, in order, and nothing else is. *)
Theorem ServeHTTP_runs_selected_handler fuel w rw r h c s w1 :
  Router_Find w (Method r) (Path r) = Ok (h, c, s, w1) ->
  (h = None -> s = NotFound ->
   ServeHTTP fuel w rw r
   = omap (release w1)
          (call fuel (heap w) (notFoundHandler (bolt w)) (reset rw r c) (trace w)))
  /\ (h = None -> s = NotAllowed ->
      ServeHTTP fuel w rw r
      = omap (release w1)
             (call fuel (heap w) (methodNotAllowedHandler (bolt w))
                   (reset rw r c) (trace w)))
  /\ (forall f, h = Some f ->
      ServeHTTP fuel w rw r
      = omap (release w1) (call fuel (heap w) (Some f) (reset rw r c) (trace w))
      /\ forall nf na,
          ServeHTTP fuel (map_bolt (set_fallbacks nf na) w) rw r
          = omap (map_bolt (set_fallbacks nf na)) (ServeHTTP fuel w rw r))
  /\ (forall name body,
      h = None ->
      (s = NotFound /\ notFoundHandler (bolt w) = Some (Func name body))
      \/ (s = NotAllowed
          /\ methodNotAllowedHandler (bolt w) = Some (Func name body)) ->
      exists w', ServeHTTP (S fuel) w rw r = Ok w'
                 /\ trace w' = trace w ++ [EvEnter name])
  /\ (forall name body,
      h = Some (Func name body) ->
      ServeHTTP (S fuel) w rw r
      = omap (release w1)
             (exec (call fuel (heap w)) (heap w) body (reset rw r c)
                   (trace w ++ [EvEnter name]))
      /\ exists w', ServeHTTP (S fuel) w rw r = Ok w'
                    /\ trace w' = trace w ++ [EvEnter name])
  /\ (forall hs n,
      h = Some (RouteFunc hs n) ->
      ServeHTTP (S fuel) w rw r
      = omap (release w1)
             (Next (call fuel (heap w)) (heap w)
                   (set_chain hs n (reset rw r c)) (trace w)))
  /\ (forall hs n name body,
      h = Some (RouteFunc hs n) ->
      0 < n ->
      slice_index (heap w) hs 0 = Some (Some (Func name body)) ->
      ServeHTTP (S (S fuel)) w rw r
      = omap (release w1)
             (exec (call fuel (heap w)) (heap w) body
                   (set_i 0 (set_chain hs n (reset rw r c)))
                   (trace w ++ [EvEnter name])))
  /\ (forall hs fs names,
      h = Some (RouteFunc hs (Z.of_nat (length fs))) ->
      chain_of (heap w) h = Some fs ->
      runs_through fs names ->
      (length fs <= fuel)%nat ->
      exists w', ServeHTTP (S fuel) w rw r = Ok w'
                 /\ trace w' = trace w ++ map EvEnter names).
Proof.
  intros Hfind.
  destruct (Router_Find_world _ _ _ _ _ _ _ Hfind)
    as (Hheap & Htrace & _ & _ & Hnf & Hna & _).
  pose proof (ServeHTTP_unfold (S fuel) _ rw _ _ _ _ _ Hfind) as HS.
  pose proof (ServeHTTP_unfold (S (S fuel)) _ rw _ _ _ _ _ Hfind) as HSS.
  rewrite Hheap, Htrace in HS, HSS.
  split; [| split; [| split; [| split; [| split; [| split; [| split]]]]]].
  - intros -> ->. rewrite (ServeHTTP_unfold _ _ _ _ _ _ _ _ Hfind).
    simpl. rewrite Hheap, Htrace, Hnf. reflexivity.
  - intros -> ->. rewrite (ServeHTTP_unfold _ _ _ _ _ _ _ _ Hfind).
    simpl. rewrite Hheap, Htrace, Hna. reflexivity.
  - intros f ->. split.
    + rewrite (ServeHTTP_unfold _ _ _ _ _ _ _ _ Hfind).
      simpl dispatch. rewrite Hheap, Htrace. reflexivity.
    + intros nf na. apply ServeHTTP_map_bolt.
      * apply handler_update_fallbacks.
      * intros h2 c2 s2 w2 Hf2. rewrite Hfind in Hf2.
        inversion Hf2; subst. reflexivity.
  - intros name body -> Hsel.
    rewrite (ServeHTTP_unfold _ _ _ _ _ _ _ _ Hfind).
    assert (Hd : dispatch (S fuel) (bolt w1) (heap w1) None s
                          (reset rw r c) (trace w1)
                 = call (S fuel) (heap w1) (Some (Func name body))
                        (reset rw r c) (trace w1)).
    { destruct Hsel as [[-> Hh] | [-> Hh]]; unfold dispatch;
        simpl Status_eqb; cbv iota; [rewrite Hnf | rewrite Hna];
        rewrite Hh; reflexivity. }
    rewrite Hd.
    destruct (call_Func_quiet fuel (heap w1) name body (reset rw r c) (trace w1)
                (reset_quiet rw r c)) as (c' & Hc & _).
    rewrite Hc. simpl. eexists. split; [reflexivity |].
    simpl. rewrite Htrace. reflexivity.
  - intros name body ->. split; [exact HS |].
    rewrite HS.
    change (dispatch (S fuel) (bolt w1) (heap w) (Some (Func name body)) s
                     (reset rw r c) (trace w))
      with (call (S fuel) (heap w) (Some (Func name body))
                 (reset rw r c) (trace w)).
    destruct (call_Func_quiet fuel (heap w) name body (reset rw r c) (trace w)
                (reset_quiet rw r c)) as (c' & Hc & _).
    rewrite Hc. simpl. eexists. split; reflexivity.
  - intros hs n ->. exact HS.
  - intros hs n name body -> Hn Hidx. rewrite HSS.
    simpl dispatch. simpl call. unfold Next at 1.
    simpl halted. cbv iota. simpl i. simpl l. simpl handlers_.
    destruct (Z.ltb_spec (-1 + 1) n) as [_ | Hge]; [| lia].
    change (-1 + 1) with 0. rewrite Hidx. reflexivity.
  - intros hs fs names -> Hchain Hruns Hfuel. rewrite HS.
    change (dispatch (S fuel) (bolt w1) (heap w)
                     (Some (RouteFunc hs (Z.of_nat (length fs)))) s
                     (reset rw r c) (trace w))
      with (call (S fuel) (heap w) (Some (RouteFunc hs (Z.of_nat (length fs))))
                 (reset rw r c) (trace w)).
    destruct (call_route_runs_chain fuel (heap w) hs fs names
                (reset rw r c) (trace w) Hchain Hruns eq_refl eq_refl Hfuel)
      as (c' & Hc).
    rewrite Hc. simpl. eexists. split; reflexivity.
Qed.

Lemma ServeHTTP_runs_selected_handler_witness :
  exists w', ServeHTTP 5 demo_world [] (mkRequest "GET" "/a") = Ok w'
             /\ trace w'
                = trace demo_world
                  ++ map EvEnter ["m1"; "m2"; "m3"; "hA"].
Proof.
  pose proof (ServeHTTP_runs_selected_handler 4 demo_world []
                (mkRequest "GET" "/a")) as H.
  edestruct H as (_ & _ & _ & _ & _ & _ & _ & Hchain);
    [vm_compute; reflexivity |].
  apply (Hchain {| ptr := 2; len := 4; cap := 4 |}
           [passes_on "m1"; passes_on "m2"; passes_on "m3"; answers "hA"]).
  - reflexivity.
  - vm_compute. reflexivity.
  - repeat (apply runs_cons; [apply through_Next, plain_Ret |]).
    apply runs_last. apply plain_Do; [split; discriminate | apply plain_Ret].
  - simpl. lia.
Defined.

(** C3: when the selected handler (route chain or fallback, or none)
    returns, [ServeHTTP] returns too, and the pool is the pool left by the
    acquisition plus the request's context, put back once, after the run;
    this holds for every status.  More fuel gives the same result, and
    enough fuel always gives one. *)
Theorem ServeHTTP_releases_context_once fuel w rw r h c s w1 c' tr' :
  Router_Find w (Method r) (Path r) = Ok (h, c, s, w1) ->
  dispatch fuel (bolt w1) (heap w1) h s (reset rw r c) (trace w1) = Ok (c', tr') ->
  (exists w',
      (forall fuel', (fuel <= fuel')%nat -> ServeHTTP fuel' w rw r = Ok w')
      /\ pool (bolt w') = c' :: tail (pool (bolt w))
      /\ length (pool (bolt w')) = S (length (pool (bolt w1)))
      /\ trace w' = tr'
      /\ heap w' = heap w)
  /\ (exists n, forall fuel', (n <= fuel')%nat ->
                               ServeHTTP fuel' w rw r <> OutOfFuel).
Proof.
  intros Hfind Hrun. split; [| apply ServeHTTP_enough_fuel].
  destruct (Router_Find_world _ _ _ _ _ _ _ Hfind)
    as (Hheap & _ & Hpool & _).
  exists (release w1 (c', tr')). split.
  - intros fuel' Hle. apply (ServeHTTP_fuel_le fuel fuel' _ _ _ _ Hle).
    rewrite (ServeHTTP_unfold _ _ _ _ _ _ _ _ Hfind), Hrun. reflexivity.
  - simpl. rewrite Hpool, Hheap. repeat split; reflexivity.
Qed.

Lemma ServeHTTP_releases_context_once_witness :
  exists w', ServeHTTP 5 demo_world [] (mkRequest "GET" "/a") = Ok w'
             /\ length (pool (bolt w')) = 1%nat
             /\ trace w' = [EvEnter "m1"; EvEnter "m2"; EvEnter "m3"; EvEnter "hA"].
Proof.
  pose proof (ServeHTTP_releases_context_once 5 demo_world []
                (mkRequest "GET" "/a")) as H.
  edestruct H as ((w' & Hs & _ & Hlen & Htr & _) & _);
    [vm_compute; reflexivity | vm_compute; reflexivity |].
  exists w'. split; [apply Hs, Nat.le_refl |]. split; [exact Hlen | exact Htr].
Defined.



(** C5: [Find] is a total function whose result is a handler with its
    parameters and [Matched], or no handler with [NotFound], or no handler
    with [NotAllowed]; each of the three occurs; and on a mismatch the
    resolution [ServeHTTP] calls returns that status instead of
    panicking. *)
Theorem Find_three_way w method path :
  let res := Find (Router (bolt w)) method path in
  ((exists f ps, res = (Some f, ps, Matched))
   \/ res = (None, [], NotFound)
   \/ res = (None, [], NotAllowed))
  /\ match res with
     | (_, _, Matched) => True
     | (_, _, s) =>
         exists c w1, Router_Find w method path = Ok (None, c, s, w1)
     end
  /\ Find only_get_x "GET" "/x" = (Some (Func "x" Ret), [], Matched)
  /\ Find only_get_x "POST" "/x" = (None, [], NotAllowed)
  /\ Find only_get_x "GET" "/y" = (None, [], NotFound).
Proof.
  intros res.
  assert (Hshape :
            (exists f ps, res = (Some f, ps, Matched))
            \/ res = (None, [], NotFound) \/ res = (None, [], NotAllowed)).
  { unfold res, Find.
    destruct (descend (segments path) (Router (bolt w)) []) as [[n |] ps]; auto.
    destruct (handlersByMethod n) as [| e es] eqn:Hh; auto.
    destruct (assoc_get method (e :: es)); eauto. }
  split; [exact Hshape |]. split.
  - assert (Hrf : forall s,
               res = (None, [], s) ->
               exists c w1, Router_Find w method path = Ok (None, c, s, w1)).
    { intros s Hres. unfold Router_Find, pool_Get.
      destruct (pool (bolt w)) as [| c0 rest];
        simpl; fold res; rewrite Hres; simpl; eauto. }
    destruct Hshape as [(f & ps & ->) | [Hres | Hres]]; [exact I | |];
      rewrite Hres; apply Hrf; exact Hres.
  - repeat split; reflexivity.
Qed.

(** C6: the three handlers [New] installs write 404, 405 and 500 with the
    standard status text and then halt, so that nothing runs afterward. *)
Theorem default_handlers_write_status_and_halt :
  notFoundHandler (New []) = default_notFoundHandler
  /\ methodNotAllowedHandler (New []) = default_methodNotAllowedHandler
  /\ internalServerErrorHandler (New []) = default_internalServerErrorHandler
  /\ default_handler_spec default_notFoundHandler "notFoundHandler"
                          404 "Not Found"
  /\ default_handler_spec default_methodNotAllowedHandler
                          "methodNotAllowedHandler" 405 "Method Not Allowed"
  /\ default_handler_spec default_internalServerErrorHandler
                          "internalServerErrorHandler" 500 "Internal Server Error".
Proof.
  split; [reflexivity |]. split; [reflexivity |]. split; [reflexivity |].
  split; [| split]; apply error_and_halt_spec; reflexivity.
Qed.



(** C8: [ServeHTTP] never calls the internal-error handler: whatever is
    stored in that field, every request is served the same way, with the
    same trace of entered functions; the field is only written, by its
    option. *)
Theorem internal_error_handler_never_invoked fuel w rw r x :
  ServeHTTP fuel (map_bolt (set_internalServerErrorHandler x) w) rw r
  = omap (map_bolt (set_internalServerErrorHandler x)) (ServeHTTP fuel w rw r)
  /\ (forall opts,
         internalServerErrorHandler (New (opts ++ [InternalServerErrorHandler x]))
         = x).
Proof.
  split.
  - apply ServeHTTP_map_bolt.
    + apply handler_update_internal.
    + intros h c s w1 _. reflexivity.
  - intros opts. rewrite New_last_option. reflexivity.
Qed.

(** C9: without a [MaxParam] option the bound is 5: the factory of the
    pool builds contexts whose [Params] have length and capacity 5, also
    after middleware and routes have been registered. *)
Theorem default_maxParam_is_five opts :
  no_MaxParam opts = true ->
  maxParam (New opts) = 5
  /\ pcap (params (pool_New (New opts))) = 5%nat
  /\ plen (params (pool_New (New opts))) = 5%nat
  /\ pcap (params (pool_Get (New opts)).1) = 5%nat
  /\ (forall growcap h,
         pcap (params (pool_New (bolt (Use growcap h (start opts))))) = 5%nat)
  /\ (forall growcap method path h w',
         Handle growcap method path h (start opts) = Ok w' ->
         pcap (params (pool_New (bolt w'))) = 5%nat).
Proof.
  intros Hno.
  pose proof (New_without_MaxParam opts Hno) as Hm.
  assert (Hfive : forall b, maxParam b = 5 -> pcap (params (pool_New b)) = 5%nat).
  { intros b Hb. rewrite (proj2 (pool_New_params b)), Hb. reflexivity. }
  split; [exact Hm |]. split; [apply Hfive, Hm |]. split.
  { rewrite (proj1 (pool_New_params _)), Hm. reflexivity. }
  split.
  { unfold pool_Get. rewrite New_pool. apply Hfive, Hm. }
  split.
  - intros growcap h. apply Hfive. rewrite maxParam_Use. exact Hm.
  - intros growcap method path h w' Hh. apply Hfive.
    rewrite (maxParam_Handle _ _ _ _ _ _ Hh). exact Hm.
Qed.

Lemma default_maxParam_is_five_witness :
  pcap (params (pool_New (New [NotFoundHandler (answers "nf")]))) = 5%nat.
Proof.
  apply (default_maxParam_is_five [NotFoundHandler (answers "nf")]).
  reflexivity.
Defined.

(** C10: each method helper is [Handle] with the upper-case method name,
    for every path, handler list and state. *)
Theorem method_helpers_are_Handle growcap path h w :
  Connect growcap path h w = Handle growcap "CONNECT" path h w
  /\ Delete growcap path h w = Handle growcap "DELETE" path h w
  /\ Get growcap path h w = Handle growcap "GET" path h w
  /\ Head growcap path h w = Handle growcap "HEAD" path h w
  /\ Options growcap path h w = Handle growcap "OPTIONS" path h w
  /\ Patch growcap path h w = Handle growcap "PATCH" path h w
  /\ Post growcap path h w = Handle growcap "POST" path h w
  /\ Put growcap path h w = Handle growcap "PUT" path h w
  /\ Trace growcap path h w = Handle growcap "TRACE" path h w.
Proof. repeat split. Qed.

(** * Further properties of registration *)

(** ** What [append] leaves alone *)

(** The three ways [append] can go. *)
Lemma append_shape growcap hp s xs :
  (xs = [] /\ append growcap hp s xs = (s, hp))
  \/ (xs <> [] /\ (len s + length xs <= cap s)%nat
      /\ append growcap hp s xs
         = ({| ptr := ptr s; len := len s + length xs; cap := cap s |},
            <[ptr s := write_from (hp !!! ptr s) (len s) xs]> hp))
  \/ (xs <> [] /\ (cap s < len s + length xs)%nat
      /\ ptr (append growcap hp s xs).1 = length hp
      /\ exists a, (append growcap hp s xs).2 = hp ++ [a]).
Proof.
  unfold append. destruct xs as [| x xs]; [left; auto |].
  set (ys := x :: xs).
  destruct (Nat.leb_spec (len s + length ys) (cap s)) as [Hfit | Hgrow].
  - right. left. repeat split; [discriminate | exact Hfit].
  - right. right. repeat split; [discriminate | exact Hgrow |].
    eexists. reflexivity.
Qed.

(** Cells covered by [keeps] survive an [append] to the slice [s], and the
    arrays of the heap keep their length. *)
Lemma append_frame growcap hp s xs p k :
  (p < length hp)%nat ->
  (ptr s = p -> (0 < cap s)%nat -> (k <= len s)%nat) ->
  let s' := (append growcap hp s xs).1 in
  let hp' := (append growcap hp s xs).2 in
  take k (hp' !!! p) = take k (hp !!! p)
  /\ length (hp' !!! p) = length (hp !!! p)
  /\ (p < length hp')%nat
  /\ (ptr s' = p -> (0 < cap s')%nat -> (k <= len s')%nat).
Proof.
  intros Hp Hk.
  destruct (append_shape growcap hp s xs)
    as [(_ & ->) | [(Hne & Hfit & ->) | (Hne & Hgrow & Hptr & a & Ha)]];
    cbn [fst snd].
  - repeat split; auto.
  - assert (Hcap : (0 < cap s)%nat).
    { destruct xs; [congruence | simpl in Hfit; lia]. }
    rewrite length_insert. cbn [ptr len cap].
    destruct (decide (ptr s = p)) as [Heq | Hneq].
    + subst p. rewrite list_lookup_total_insert_eq by exact Hp.
      rewrite write_from_length.
      specialize (Hk eq_refl Hcap).
      split; [apply write_from_take_below; exact Hk |].
      repeat split; auto. intros _ _. lia.
    + rewrite list_lookup_total_insert_ne by exact Hneq.
      repeat split; auto. intros Heq. congruence.
  - rewrite Ha, Hptr. rewrite length_app. simpl length.
    rewrite lookup_total_app_l by exact Hp.
    repeat split; auto; try lia.
Qed.

Lemma Use_keeps growcap h w p k :
  keeps p k w ->
  keeps p k (Use growcap h w)
  /\ take k (heap (Use growcap h w) !!! p) = take k (heap w !!! p)
  /\ length (heap (Use growcap h w) !!! p) = length (heap w !!! p).
Proof.
  intros (Hp & Hk).
  pose proof (append_frame growcap (heap w) (handlers (bolt w)) h p k Hp Hk)
    as (Ht & Hl & Hp' & Hk').
  unfold keeps, Use.
  destruct (append growcap (heap w) (handlers (bolt w)) h) as [s' hp'].
  cbn [fst snd bolt heap] in *. repeat split; auto.
Qed.

Lemma Handle_keeps growcap method path h w w' p k :
  keeps p k w ->
  Handle growcap method path h w = Ok w' ->
  keeps p k w'
  /\ take k (heap w' !!! p) = take k (heap w !!! p)
  /\ length (heap w' !!! p) = length (heap w !!! p).
Proof.
  intros (Hp & Hk).
  pose proof (append_frame growcap (heap w) (handlers (bolt w)) h p k Hp Hk)
    as (Ht & Hl & Hp' & _).
  unfold keeps, Handle.
  destruct (append growcap (heap w) (handlers (bolt w)) h) as [s' hp'].
  cbn [fst snd] in *.
  destruct (Add method path _ (Router (bolt w))) as [r |]; [| discriminate].
  intros H. inversion H; subst; clear H. cbn [bolt heap].
  repeat split; auto.
Qed.

Lemma register_keeps growcap script : forall w w' p k,
  keeps p k w ->
  register growcap script w = Ok w' ->
  keeps p k w'
  /\ take k (heap w' !!! p) = take k (heap w !!! p)
  /\ length (heap w' !!! p) = length (heap w !!! p).
Proof.
  induction script as [| [h | m q h] script IH]; intros w w' p k Hkeep Hreg;
    simpl in Hreg.
  - inversion Hreg; subst. auto.
  - destruct (Use_keeps growcap h w p k Hkeep) as (Hk1 & Ht1 & Hl1).
    destruct (IH _ _ _ _ Hk1 Hreg) as (Hk2 & Ht2 & Hl2).
    repeat split; [apply Hk2 .. | congruence | congruence].
  - destruct (Handle growcap m q h w) as [w1 | |] eqn:Hh; try discriminate.
    destruct (Handle_keeps growcap m q h w w1 p k Hkeep Hh) as (Hk1 & Ht1 & Hl1).
    destruct (IH _ _ _ _ Hk1 Hreg) as (Hk2 & Ht2 & Hl2).
    repeat split; [apply Hk2 .. | congruence | congruence].
Qed.

(** ** The chain of a route under later registrations *)

(** What [Handle] builds: the slice [append] returns, and the closure over
    it that goes to the router; the middleware slice header is not
    assigned. *)
Lemma Handle_closure growcap method path h w w' :
  Handle growcap method path h w = Ok w' ->
  exists s1,
    append growcap (heap w) (handlers (bolt w)) h = (s1, heap w')
    /\ Add method path (RouteFunc s1 (Z.of_nat (len s1))) (Router (bolt w))
       = Some (Router (bolt w'))
    /\ handlers (bolt w') = handlers (bolt w).
Proof.
  unfold Handle.
  destruct (append growcap (heap w) (handlers (bolt w)) h) as [s1 hp1].
  destruct (Add method path (RouteFunc s1 (Z.of_nat (len s1))) (Router (bolt w)))
    as [r |] eqn:Hadd; [| discriminate].
  intros H. inversion H; subst; clear H. exists s1. auto.
Qed.

(** The chain a closure runs after later registrations, when its first [k]
    cells are kept. *)
Lemma chain_after growcap later w1 w2 s1 k :
  wf_slice (heap w1) s1 ->
  (k <= len s1)%nat ->
  ((0 < cap s1)%nat -> keeps (ptr s1) k w1) ->
  register growcap later w1 = Ok w2 ->
  exists chain,
    chain_of (heap w2) (Some (RouteFunc s1 (Z.of_nat (len s1)))) = Some chain
    /\ take k chain = take k (slice_elems (heap w1) s1)
    /\ length chain = len s1.
Proof.
  intros (Hle & Harr) Hk Hkeep Hreg.
  unfold chain_of. rewrite Nat2Z.id. eexists. split; [reflexivity |].
  unfold slice_elems. rewrite !take_take.
  destruct Harr as [H0 | (Hp & Hl)].
  - assert (Hz : len s1 = 0%nat) by lia.
    assert (Hkz : k = 0%nat) by lia.
    rewrite Hz, Hkz. simpl. auto.
  - destruct (Nat.eq_dec (cap s1) 0%nat) as [Hc0 | Hc0].
    + assert (Hz : len s1 = 0%nat) by lia.
      assert (Hkz : k = 0%nat) by lia.
      rewrite Hz, Hkz. simpl. auto.
    + destruct (register_keeps growcap later w1 w2 (ptr s1) k
                  (Hkeep ltac:(lia)) Hreg) as (_ & Ht & Hlen).
      rewrite ?Nat.min_id, ?(Nat.min_l k (len s1)) by lia.
      split; [exact Ht |].
      rewrite length_take, Hlen, Hl. lia.
Qed.

(** X2: later [Use] and [Handle] calls can only overwrite the route's own
    handlers: the chain of a registered route keeps its length, and its
    first part stays the middleware that was registered before it. *)
Theorem later_calls_keep_middleware_part growcap method path h later w w1 w2 :
  (forall oldcap needed, (needed <= growcap oldcap needed)%nat) ->
  wf_world w ->
  Handle growcap method path h w = Ok w1 ->
  register growcap later w1 = Ok w2 ->
  exists f chain,
    Add method path f (Router (bolt w)) = Some (Router (bolt w1))
    /\ chain_of (heap w1) (Some f) = Some (middleware w ++ h)
    /\ chain_of (heap w2) (Some f) = Some chain
    /\ take (length (middleware w)) chain = middleware w
    /\ length chain = (length (middleware w) + length h)%nat.
Proof.
  intros Hfit Hwf Hh Hreg.
  destruct (Handle_closure _ _ _ _ _ _ Hh) as (s1 & Happ & Hadd & Hsame).
  pose proof (append_elems growcap Hfit (heap w) (handlers (bolt w)) h Hwf)
    as (He & Hw1 & Hlen1).
  rewrite Happ in He, Hw1, Hlen1. cbn [fst snd] in He, Hw1, Hlen1.
  assert (Hc0 : chain_of (heap w1) (Some (RouteFunc s1 (Z.of_nat (len s1))))
                = Some (middleware w ++ h)).
  { unfold chain_of, middleware. rewrite Nat2Z.id, <- He.
    rewrite take_ge; [reflexivity |].
    rewrite (slice_elems_length _ _ Hw1). lia. }
  pose proof (slice_elems_length _ _ Hwf) as Hmid.
  destruct (chain_after growcap later w1 w2 s1 (len (handlers (bolt w))))
    as (chain & Hc & Ht & Hl); auto; try lia.
  { intros Hpos. destruct Hw1 as (_ & [H0 | (Hp & _)]); [lia |].
    split; [exact Hp |]. intros _ _. rewrite Hsame. lia. }
  exists (RouteFunc s1 (Z.of_nat (len s1))), chain.
  split; [exact Hadd |]. split; [exact Hc0 |]. split; [exact Hc |].
  unfold middleware in *. rewrite Hmid. split.
  - rewrite Ht, He, take_app_length'; [reflexivity | congruence].
  - rewrite Hl, Hlen1. reflexivity.
Qed.

(** X3: a route registered while the middleware slice has no spare capacity
    (in particular, before any [Use]) keeps its whole chain whatever is
    registered later. *)
Theorem full_slice_chain_is_stable growcap method path h later w w1 w2 :
  (forall oldcap needed, (needed <= growcap oldcap needed)%nat) ->
  wf_world w ->
  len (handlers (bolt w)) = cap (handlers (bolt w)) ->
  Handle growcap method path h w = Ok w1 ->
  register growcap later w1 = Ok w2 ->
  exists f,
    Add method path f (Router (bolt w)) = Some (Router (bolt w1))
    /\ chain_of (heap w1) (Some f) = Some (middleware w ++ h)
    /\ chain_of (heap w2) (Some f) = Some (middleware w ++ h).
Proof.
  intros Hfit Hwf Hfull Hh Hreg.
  destruct (Handle_closure _ _ _ _ _ _ Hh) as (s1 & Happ & Hadd & Hsame).
  pose proof (append_elems growcap Hfit (heap w) (handlers (bolt w)) h Hwf)
    as (He & Hw1 & Hlen1).
  rewrite Happ in He, Hw1, Hlen1. cbn [fst snd] in He, Hw1, Hlen1.
  assert (Hc0 : chain_of (heap w1) (Some (RouteFunc s1 (Z.of_nat (len s1))))
                = Some (middleware w ++ h)).
  { unfold chain_of, middleware. rewrite Nat2Z.id, <- He.
    rewrite take_ge; [reflexivity |].
    rewrite (slice_elems_length _ _ Hw1). lia. }
  destruct (chain_after growcap later w1 w2 s1 (len s1))
    as (chain & Hc & Ht & Hl); auto.
  { intros Hpos. destruct Hw1 as (_ & [H0 | (Hp & _)]); [lia |].
    split; [exact Hp |]. rewrite Hsame. intros Hptr Hcap.
    destruct (append_shape growcap (heap w) (handlers (bolt w)) h)
      as [(_ & Hs) | [(Hne & Hle & _) | (_ & _ & Hfresh & _)]].
    - rewrite Happ in Hs. inversion Hs; subst. lia.
    - destruct h; [congruence | simpl in Hle; lia].
    - rewrite Happ in Hfresh. cbn [fst] in Hfresh.
      destruct Hwf as (_ & [H0 | (Hp0 & _)]); lia. }
  exists (RouteFunc s1 (Z.of_nat (len s1))).
  split; [exact Hadd |]. split; [exact Hc0 |].
  rewrite Hc. f_equal. unfold middleware.
  rewrite <- He, <- (take_ge chain (len s1)) by lia.
  rewrite Ht. apply take_ge.
  rewrite (slice_elems_length _ _ Hw1). lia.
Qed.

(** X1: the middleware of a [Bolt] is what was passed to [Use], in the order
    of the calls, whatever [Handle] calls come in between: [Handle] never
    changes it. *)
Theorem Use_accumulates_in_order growcap script w w' :
  (forall oldcap needed, (needed <= growcap oldcap needed)%nat) ->
  wf_world w ->
  register growcap script w = Ok w' ->
  middleware w' = middleware w ++ used script
  /\ wf_world w'
  /\ len (handlers (bolt w')) = (len (handlers (bolt w)) + length (used script))%nat.
Proof.
  intros Hfit Hwf Hreg.
  destruct (register_middleware growcap Hfit script w w' Hwf Hreg) as (Hm & Hwf').
  split; [exact Hm |]. split; [exact Hwf' |].
  rewrite <- (slice_elems_length _ _ Hwf'), <- (slice_elems_length _ _ Hwf).
  fold (middleware w') (middleware w). rewrite Hm, length_app. reflexivity.
Qed.

Lemma middleware_world_wf : wf_world middleware_world.
Proof.
  split; [vm_compute; lia |]. right. split; [vm_compute; lia | reflexivity].
Defined.

Lemma Use_accumulates_in_order_witness :
  middleware demo_world
  = [passes_on "m1"; passes_on "m2"; passes_on "m3"].
Proof.
  apply (Use_accumulates_in_order growslice (three_middleware ++ [get_a])
           (start []) demo_world growslice_fits).
  - split; [vm_compute; lia | left; reflexivity].
  - reflexivity.
Defined.

Lemma later_calls_keep_middleware_part_witness :
  exists f chain,
    chain_of (heap demo_world) (Some f)
    = Some ([passes_on "m1"; passes_on "m2"; passes_on "m3"] ++ [answers "hA"])
    /\ chain_of (heap (Use growslice [passes_on "m4"] demo_world)) (Some f)
       = Some chain
    /\ take 3 chain = [passes_on "m1"; passes_on "m2"; passes_on "m3"]
    /\ length chain = 4%nat.
Proof.
  destruct (later_calls_keep_middleware_part growslice "GET" "/a"
              [answers "hA"] [CallUse [passes_on "m4"]]
              middleware_world demo_world
              (Use growslice [passes_on "m4"] demo_world)
              growslice_fits middleware_world_wf eq_refl eq_refl)
    as (f & chain & _ & H1 & H2 & H3 & H4).
  exists f, chain. repeat split; assumption.
Defined.

Lemma full_slice_chain_is_stable_witness :
  exists f w1 w2,
    Handle growslice "GET" "/a" [answers "hA"] (start []) = Ok w1
    /\ register growslice [get_b; CallUse [passes_on "m1"]] w1 = Ok w2
    /\ chain_of (heap w2) (Some f) = Some [answers "hA"].
Proof.
  pose proof (full_slice_chain_is_stable growslice "GET" "/a" [answers "hA"]
                [get_b; CallUse [passes_on "m1"]] (start [])) as H.
  edestruct H as (f & _ & _ & Hc);
    [exact growslice_fits
    | split; [vm_compute; lia | left; reflexivity]
    | reflexivity
    | vm_compute; reflexivity
    | vm_compute; reflexivity
    |].
  eexists f, _, _. split; [vm_compute; reflexivity |].
  split; [vm_compute; reflexivity | exact Hc].
Defined.

Lemma Handle_twice_overwrites_witness :
  exists f w1 w2,
    Handle growslice "GET" "/a" [answers "hA"] middleware_world = Ok w1
    /\ Handle growslice "GET" "/b" [answers "hB"] w1 = Ok w2
    /\ chain_of (heap w1) (Some f)
       = Some (middleware middleware_world ++ [answers "hA"])
    /\ chain_of (heap w2) (Some f)
       = Some (middleware middleware_world ++ [answers "hB"]).
Proof.
  pose proof (Handle_twice_overwrites growslice "GET" "/a" (answers "hA")
                "GET" "/b" (answers "hB") middleware_world) as H.
  edestruct H as (_ & H1 & H2);
    [exact middleware_world_wf
    | vm_compute; lia
    | vm_compute; reflexivity
    | vm_compute; reflexivity
    |].
  eexists _, _, _. split; [vm_compute; reflexivity |].
  split; [vm_compute; reflexivity |]. split; [exact H1 | exact H2].
Defined.

(** * Further properties of [New], [ServeHTTP] and [MethodMap] *)

(** ** Options *)

(** X5: [New(opts...)] is determined field by field: each of the four
    configurable fields holds the argument of the last option of its kind,
    or its default when no such option was passed, so options of different
    kinds do not interfere and their relative order does not matter; and
    no option can touch the router, the middleware or the pool, which
    start empty. *)
Theorem New_fields opts :
  New opts
  = {| Router := empty_Node;
       handlers := nil_slice;
       maxParam := last_of pick_MaxParam opts 5;
       notFoundHandler :=
         last_of pick_NotFoundHandler opts default_notFoundHandler;
       methodNotAllowedHandler :=
         last_of pick_MethodNotAllowedHandler opts
                 default_methodNotAllowedHandler;
       internalServerErrorHandler :=
         last_of pick_InternalServerErrorHandler opts
                 default_internalServerErrorHandler;
       pool := [] |}.
Proof. unfold New. rewrite fold_options_fields. reflexivity. Qed.

(** ** File routes *)

(** X6: [Static], [ServeFile] and [Index] register one [GET] route each, under
    [path+"/*"], [path] and ["/"]; like any route it runs the middleware
    registered so far before the file handler, and the middleware itself
    is unchanged. *)
Theorem file_routes_run_middleware growcap static_handler file_handler
  path root file w w' :
  (forall oldcap needed, (needed <= growcap oldcap needed)%nat) ->
  wf_world w ->
  (Static growcap static_handler path root w = Ok w' ->
   exists f,
     Add "GET" (path +:+ "/*") f (Router (bolt w)) = Some (Router (bolt w'))
     /\ chain_of (heap w') (Some f)
        = Some (middleware w ++ [Some (static_handler path root)])
     /\ middleware w' = middleware w)
  /\ (ServeFile growcap file_handler path file w = Ok w' ->
      exists f,
        Add "GET" path f (Router (bolt w)) = Some (Router (bolt w'))
        /\ chain_of (heap w') (Some f)
           = Some (middleware w ++ [Some (file_handler file)])
        /\ middleware w' = middleware w)
  /\ (Index growcap file_handler file w = Ok w' ->
      exists f,
        Add "GET" "/" f (Router (bolt w)) = Some (Router (bolt w'))
        /\ chain_of (heap w') (Some f)
           = Some (middleware w ++ [Some (file_handler file)])
        /\ middleware w' = middleware w).
Proof.
  intros Hfit Hwf.
  assert (H : forall method pattern h,
             Handle growcap method pattern h w = Ok w' ->
             exists f,
               Add method pattern f (Router (bolt w)) = Some (Router (bolt w'))
               /\ chain_of (heap w') (Some f) = Some (middleware w ++ h)
               /\ middleware w' = middleware w).
  { intros method pattern h Hh.
    destruct (Handle_binds growcap Hfit method pattern h w w' Hwf Hh)
      as ((f & Ha & Hc) & Hm & _).
    exists f. auto. }
  split; [| split]; intros Hreg; apply H; exact Hreg.
Qed.

Lemma file_routes_run_middleware_witness :
  exists f w',
    Index growslice (fun file => Func file Ret) "index.html" middleware_world
    = Ok w'
    /\ chain_of (heap w') (Some f)
       = Some (middleware middleware_world ++ [Some (Func "index.html" Ret)]).
Proof.
  pose proof (file_routes_run_middleware growslice
                (fun path root => Func root Ret) (fun file => Func file Ret)
                "/assets" "public" "index.html" middleware_world) as H.
  edestruct H as (_ & _ & Hindex);
    [exact growslice_fits | exact middleware_world_wf |].
  edestruct Hindex as (f & _ & Hc & _); [vm_compute; reflexivity |].
  exists f. eexists. split; [vm_compute; reflexivity | exact Hc].
Defined.

(** ** [MethodMap] *)

Lemma MethodMap_lookup m c :
  MethodMap !! m = Some c ->
  (m, c) ∈ [("CONNECT", 1); ("DELETE", 2); ("GET", 3); ("HEAD", 4);
            ("OPTIONS", 5); ("PATCH", 6); ("POST", 7); ("PUT", 8);
            ("TRACE", 9)].
Proof. apply elem_of_list_to_map_2. Qed.

(** X8: the codes of [MethodMap] are distinct and range over 1..9, so the zero
    value Go returns for a missing key is never the code of a method:
    [MethodMap[m] == 0] exactly when [m] is not a key, and two names with
    the same non-zero code are the same method. *)
Theorem MethodMap_codes m1 m2 :
  (MethodMap_index m1 = 0 <-> MethodMap !! m1 = None)
  /\ 0 <= MethodMap_index m1 <= 9
  /\ (MethodMap_index m1 = MethodMap_index m2 ->
      MethodMap_index m1 <> 0 -> m1 = m2).
Proof.
  unfold MethodMap_index.
  destruct (MethodMap !! m1) as [c1 |] eqn:H1;
    destruct (MethodMap !! m2) as [c2 |] eqn:H2; simpl.
  - apply MethodMap_lookup in H1. apply MethodMap_lookup in H2.
    rewrite !elem_of_cons, elem_of_nil in H1.
    rewrite !elem_of_cons, elem_of_nil in H2.
    repeat (destruct H1 as [H1 | H1]); try contradiction;
      inversion H1; subst; clear H1;
      (split; [split; intros; discriminate |]); (split; [lia |]);
      intros Hc _;
      repeat (destruct H2 as [H2 | H2]); try contradiction;
      inversion H2; subst; clear H2; try reflexivity; discriminate.
  - apply MethodMap_lookup in H1.
    rewrite !elem_of_cons, elem_of_nil in H1.
    repeat (destruct H1 as [H1 | H1]); try contradiction;
      inversion H1; subst; clear H1;
      (split; [split; intros; discriminate |]); (split; [lia |]);
      intros Hc _; discriminate.
  - split; [split; reflexivity |]. split; [lia |]. intros _ Hne. congruence.
  - split; [split; reflexivity |]. split; [lia |]. intros _ Hne. congruence.
Qed.

Lemma MethodMap_codes_witness : MethodMap !! "get" = None.
Proof. apply (proj1 (MethodMap_codes "get" "get")). reflexivity. Defined.

(** ** Nil fallback handlers *)

(** X9: [ServeHTTP] tests the route handler against nil but calls the fallback
    handlers as they are: when the not-found (or method-not-allowed)
    handler was overridden with nil, every request resolved to that status
    makes [ServeHTTP] panic. *)
Theorem nil_fallback_panics fuel w rw r c s w1 :
  Router_Find w (Method r) (Path r) = Ok (None, c, s, w1) ->
  (s = NotFound /\ notFoundHandler (bolt w) = None)
  \/ (s = NotAllowed /\ methodNotAllowedHandler (bolt w) = None) ->
  ServeHTTP (S fuel) w rw r = Panic.
Proof.
  intros Hfind Hnil.
  destruct (Router_Find_world _ _ _ _ _ _ _ Hfind)
    as (_ & _ & _ & _ & Hnf & Hna & _).
  rewrite (ServeHTTP_unfold _ _ _ _ _ _ _ _ Hfind).
  unfold dispatch.
  destruct Hnil as [[-> Hn] | [-> Hn]]; simpl Status_eqb; cbv iota;
    [rewrite Hnf | rewrite Hna]; rewrite Hn; reflexivity.
Qed.

Lemma nil_fallback_panics_witness :
  ServeHTTP 1 (start [NotFoundHandler None]) [] (mkRequest "GET" "/") = Panic.
Proof.
  pose proof (nil_fallback_panics 0 (start [NotFoundHandler None]) []
                (mkRequest "GET" "/")) as H.
  eapply H; [vm_compute; reflexivity |].
  left. split; reflexivity.
Defined.
